(** * Personal-Code-Library: the two-stack [Queue] and the [Segtree]

    A shallow embedding of [src/Python/Queue.py] and [src/Python/Segtree.py].

    Conventions of the embedding:
    - a Python [int] is a [Z];
    - a Python value that is either [None] or a "real" item of type [T] is
      an [option T];
    - a Python [list] is a [list]; indexing goes through [getitem] and
      [setitem], which resolve negative indices and raise [IndexError]
      out of range, as Python does;
    - a method is a computation in the state-and-exception monad [M]: it
      receives the object, and returns either a value or a raised
      exception, together with the object as the call left it. *)

From Stdlib Require Import ZArith Lia List Ascii String.
From stdpp Require Import base tactics option list numbers strings pretty.
From Equations Require Import Equations.

Local Open Scope Z_scope.

(** ** Python prelude *)

Module Py.

(** The only exception class the two modules can raise. *)
Inductive exn : Type :=
| IndexError (msg : string).

Inductive Res (A : Type) : Type :=
| Ok (a : A)
| Raise (e : exn).
Arguments Ok {A} a.
Arguments Raise {A} e.

Definition is_ok {A} (r : Res A) : bool :=
  match r with Ok _ => true | Raise _ => false end.

(** [M S A]: a method of an object of type [S] returning an [A]. *)
Definition M (S A : Type) : Type := S → Res A * S.

Definition ret {S A} (a : A) : M S A := λ s, (Ok a, s).
Definition raise {S A} (e : exn) : M S A := λ s, (Raise e, s).
Definition bind {S A B} (c : M S A) (k : A → M S B) : M S B :=
  λ s, match c s with
       | (Ok a, s') => k a s'
       | (Raise e, s') => (Raise e, s')
       end.
Definition read {S} : M S S := λ s, (Ok s, s).
Definition write {S} (f : S → S) : M S unit := λ s, (Ok tt, f s).
(** A pure computation that may raise, run without touching the object. *)
Definition lift {S A} (r : Res A) : M S A := λ s, (r, s).

(** The same sequencing for computations that only raise. *)
Definition rbind {A B} (r : Res A) (k : A → Res B) : Res B :=
  match r with Ok a => k a | Raise e => Raise e end.

(** [len(l)] *)
Definition len {A} (l : list A) : Z := Z.of_nat (length l).

(** [range(n)] *)
Definition range (n : Z) : list Z := Z.of_nat <$> seq 0 (Z.to_nat n).

(** [range(start, -1, -1)]: [start, start-1, ..., 0]; empty when
    [start < 0]. *)
Definition range_down (start : Z) : list Z := reverse (range (start + 1)).

(** The position a list index denotes: negative indices count from the
    back; [None] when the index is out of range. *)
Definition norm_index {A} (l : list A) (i : Z) : option nat :=
  let j := if i <? 0 then i + len l else i in
  if (0 <=? j) && (j <? len l) then Some (Z.to_nat j) else None.

(** [l[i]] *)
Definition getitem {A} (l : list A) (i : Z) : Res A :=
  match norm_index l i with
  | Some j =>
      match l !! j with
      | Some x => Ok x
      | None => Raise (IndexError "list index out of range")
      end
  | None => Raise (IndexError "list index out of range")
  end.

(** At a natural-number index, [l[i]] is the plain lookup. *)
Lemma getitem_nat {A} (l : list A) (i : nat) :
  getitem l (Z.of_nat i) =
    match l !! i with
    | Some x => Ok x
    | None => Raise (IndexError "list index out of range")
    end.
Proof.
  unfold getitem, norm_index, len.
  destruct (Z.ltb_spec (Z.of_nat i) 0); [lia|].
  destruct (Z.leb_spec 0 (Z.of_nat i)); [|lia]. simpl.
  destruct (Z.ltb_spec (Z.of_nat i) (Z.of_nat (length l))).
  - by rewrite Nat2Z.id.
  - rewrite lookup_ge_None_2; [done | lia].
Qed.

Lemma getitem_nat_Ok {A} (l : list A) (i : nat) (x : A) :
  getitem l (Z.of_nat i) = Ok x → norm_index l (Z.of_nat i) = Some i ∧ l !! i = Some x.
Proof.
  rewrite getitem_nat. destruct (l !! i) as [y|] eqn:E; [|done].
  intros [= ->]. split; [|done]. apply lookup_lt_Some in E.
  unfold norm_index, len.
  destruct (Z.ltb_spec (Z.of_nat i) 0); [lia|].
  destruct (Z.leb_spec 0 (Z.of_nat i)); [|lia]. simpl.
  destruct (Z.ltb_spec (Z.of_nat i) (Z.of_nat (length l))); [|lia].
  by rewrite Nat2Z.id.
Qed.

(** [l[i] = x] *)
Definition setitem {A} (l : list A) (i : Z) (x : A) : Res (list A) :=
  match norm_index l i with
  | Some j => Ok (<[j:=x]> l)
  | None => Raise (IndexError "list assignment index out of range")
  end.

(** A slice bound, resolved as Python does: negative bounds count from
    the back, then the bound is clamped to [[0, len l]]. *)
Definition clamp {A} (l : list A) (i : Z) : nat :=
  let j := if i <? 0 then i + len l else i in
  Z.to_nat (Z.min (Z.max j 0) (len l)).

(** [l[lo:hi]] *)
Definition slice {A} (l : list A) (lo hi : Z) : list A :=
  take (clamp l hi - clamp l lo)%nat (drop (clamp l lo) l).

(** [l.pop()]: the list without its last item, and that item; [None]
    stands for the [IndexError] of popping an empty list. *)
Fixpoint pop {A} (l : list A) : option (list A * A) :=
  match l with
  | [] => None
  | x :: l' =>
      match pop l' with
      | None => Some ([], x)
      | Some (r, y) => Some (x :: r, y)
      end
  end.

(** [functools.reduce(op, l)] on a non-empty list: the left fold
    [op(...op(op(l[0], l[1]), l[2])..., l[-1])]. *)
Definition reduce {A} (op : A → A → A) (l : list A) : option A :=
  match l with
  | [] => None
  | x :: l' => Some (foldl op x l')
  end.

(** [str(i)] for an [int], as it appears in an f-string. *)
Definition str (i : Z) : string := pretty i.

(** The character [c] does not occur in [s]. *)
Fixpoint lacks (c : ascii) (s : string) : Prop :=
  match s with
  | EmptyString => True
  | String c' s' => c' ≠ c ∧ lacks c s'
  end.

(** [c] is not a decimal digit. *)
Definition not_digit (c : ascii) : Prop := ∀ d, pretty_N_char d ≠ c.

(** A value together with the equation that names it, for the loops
    whose termination depends on the outcome of a test. *)
Definition inspect {A} (a : A) : {b : A | a = b} := exist _ a eq_refl.

(** [range(start, stop)] *)
Definition range2 (start stop : Z) : list Z :=
  (λ i, start + i) <$> range (stop - start).

(** [sum(l)] for a list of [int]s *)
Definition sum (l : list Z) : Z := foldl Z.add 0 l.

End Py.

Import Py.

Declare Scope py_scope.
Delimit Scope py_scope with py.
Notation "'let*' x ':=' c 'in' k" := (bind c (λ x, k))
  (at level 10, x pattern, c at level 100, k at level 200) : py_scope.
Notation "c ';;' k" := (bind c (λ _, k))
  (at level 100, k at level 200, right associativity) : py_scope.
Notation "'let?' x ':=' r 'in' k" := (rbind r (λ x, k))
  (at level 10, x pattern, r at level 100, k at level 200) : py_scope.
Local Open Scope py_scope.

(** ** [Queue.py] *)

Module Queue.
Section Queue.

(** The type of the real (non-[None]) items. *)
Context {T : Type}.

Record t : Type := mk {
  stack_1 : list (option T);   (* Internal stack 1 *)
  stack_2 : list (option T);   (* Internal stack 2 *)
  n : Z                        (* Number of elements currently in the queue *)
}.

Definition set_stack_1 (v : list (option T)) (self : t) : t :=
  mk v (stack_2 self) (n self).
Definition set_stack_2 (v : list (option T)) (self : t) : t :=
  mk (stack_1 self) v (n self).
Definition set_n (v : Z) (self : t) : t :=
  mk (stack_1 self) (stack_2 self) v.

(** [__init__] *)
Definition init : t := mk [] [] 0.

(** [enq] *)
Definition enq (k : option T) : M t unit :=
  let* self := read in
  write (set_n (n self + 1));;
  let* self := read in
  write (set_stack_1 (stack_1 self ++ [k])).

(** The loop of [deq]:
    [while len(self.stack_1) != 0:
       next = self.stack_1.pop(); self.stack_2.append(next)] *)
Equations? transfer (self : t) : Res unit * t
  by wf (length (stack_1 self)) lt :=
  transfer self with inspect (len (stack_1 self) =? 0) := {
    | true ↾ Hlen => (Ok tt, self)
    | false ↾ Hlen with inspect (pop (stack_1 self)) := {
        | None ↾ Hpop => (Raise (IndexError "pop from empty list"), self)
        | Some (rest, next) ↾ Hpop =>
            transfer (set_stack_2 (stack_2 self ++ [next])
                        (set_stack_1 rest self)) } }.
Proof.
  simpl. clear -Hpop. revert rest next Hpop.
  induction (stack_1 self) as [|x l IH]; intros rest next Hpop; [done|].
  simpl in Hpop. destruct (pop l) as [[r y]|] eqn:E.
  - injection Hpop as <- <-. specialize (IH _ _ eq_refl). simpl. lia.
  - injection Hpop as <- <-. simpl. lia.
Qed.

(** [deq] *)
Definition deq : M t (option T) :=
  let* self := read in
  if n self =? 0 then ret None
  else
    write (set_n (n self - 1));;
    let* self := read in
    (if len (stack_2 self) =? 0 then transfer else ret tt);;
    let* self := read in
    match pop (stack_2 self) with
    | Some (rest, top) => write (set_stack_2 rest);; ret top
    | None => raise (IndexError "pop from empty list")
    end.

(** [clear] *)
Definition clear : M t unit :=
  write (set_stack_1 []);;
  write (set_stack_2 []);;
  write (set_n 0).

(** [len] *)
Definition length : M t Z :=
  let* self := read in ret (n self).

(** [enq] of each item of [vs], first to last. *)
Fixpoint enq_all (vs : list (option T)) : M t unit :=
  match vs with
  | [] => ret tt
  | v :: vs => enq v;; enq_all vs
  end.

(** [k] calls of [deq]; the results in the order of the calls. *)
Fixpoint deq_times (k : nat) : M t (list (option T)) :=
  match k with
  | O => ret []
  | S k => let* x := deq in let* xs := deq_times k in ret (x :: xs)
  end.

(** The queues a caller can obtain: a new one, and the object left by
    any call of a public method, raised or not. *)
Inductive reachable : t → Prop :=
| reach_init : reachable init
| reach_enq q k : reachable q → reachable (enq k q).2
| reach_deq q : reachable q → reachable (deq q).2
| reach_clear q : reachable q → reachable (clear q).2
| reach_length q : reachable q → reachable (length q).2.

(** The items of the queue, front first. *)
Definition contents (q : t) : list (option T) :=
  reverse (stack_2 q) ++ stack_1 q.

(** [n] counts the items of the two stacks. *)
Definition counted (q : t) : Prop :=
  n q = len (stack_1 q) + len (stack_2 q).

End Queue.
Arguments t : clear implicits.
End Queue.

(** ** [Segtree.py] *)

Module Segtree.
Section Segtree.

(** The type [T] of the items of the underlying array. A cell of the
    tree holds an item or the padding [None]. *)
Context {T : Type}.

Record t : Type := mk {
  n : Z;                                   (* Number of items in the underlying list *)
  op : option T → option T → option T;     (* Join operator; modified to handle None inputs *)
  seg : list (option T);                   (* Array to store the main segtree *)
  span : list (Z * Z);                     (* span[i] = interval [L:R] corresponding to seg[i] *)
  l : Z                                    (* Length of seg *)
}.

Definition set_seg (v : list (option T)) (self : t) : t :=
  mk (n self) (op self) v (span self) (l self).
Definition set_span (v : list (Z * Z)) (self : t) : t :=
  mk (n self) (op self) (seg self) v (l self).

(** [op_none], the join operator modified to handle [None] inputs. The
    join operator [op] given to [__init__] is a function on real items. *)
Definition op_none (op : T → T → T) (a b : option T) : option T :=
  match a, b with
  | None, None => None
  | None, Some _ => b
  | Some _, None => a
  | Some x, Some y => Some (op x y)
  end.

(** The loop of [_ceil_log_2]:
    [while n > 1:
       if n%2 == 1: exact = False
       ans += 1
       n >>= 1] *)
Equations? ceil_log_2_loop (n ans : Z) (exact : bool) : Z * bool
  by wf (Z.to_nat n) lt :=
  ceil_log_2_loop n ans exact with decide (n > 1) := {
    | left Hgt =>
        let exact := if n `mod` 2 =? 1 then false else exact in
        let ans := ans + 1 in
        let n := n ≫ 1 in
        ceil_log_2_loop n ans exact
    | right _ => (ans, exact) }.
Proof.
  match goal with |- (Z.to_nat ?x < Z.to_nat ?y)%nat =>
    subst x; rewrite Z.shiftr_div_pow2 by lia; change (2 ^ 1) with 2;
    assert (y `div` 2 < y) by (apply Z.div_lt; lia);
    assert (0 <= y `div` 2) by (apply Z.div_pos; lia); lia
  end.
Qed.

(** [_ceil_log_2] *)
Definition _ceil_log_2 (n : Z) : Z :=
  let '(ans, exact) := ceil_log_2_loop n 0 true in
  if exact then ans else ans + 1.

(** [for i in xs: body] *)
Fixpoint for_ {S} (xs : list Z) (body : Z → M S unit) : M S unit :=
  match xs with
  | [] => ret tt
  | i :: xs => body i;; for_ xs body
  end.

(** [self.seg[i] = self.op(self.seg[2*i+1], self.seg[2*i+2])] *)
Definition join_children (i : Z) : M t unit :=
  let* self := read in
  let* x := lift (getitem (seg self) (2 * i + 1)) in
  let* y := lift (getitem (seg self) (2 * i + 2)) in
  let* seg' := lift (setitem (seg self) i (op self x y)) in
  write (set_seg seg').

(** [self.span[i] = [self.span[2*i+1][0], self.span[2*i+2][1]]] *)
Definition join_spans (i : Z) : M t unit :=
  let* self := read in
  let* lc := lift (getitem (span self) (2 * i + 1)) in
  let* rc := lift (getitem (span self) (2 * i + 2)) in
  let* span' := lift (setitem (span self) i (lc.1, rc.2)) in
  write (set_span span').

(** The body of the first loop of [__init__]:
    [self.seg[i + k-1] = a[i]; self.span[i + k-1] = [i,i+1]] *)
Definition init_leaf (a : list (option T)) (k i : Z) : M t unit :=
  let* self := read in
  let* x := lift (getitem a i) in
  let* seg' := lift (setitem (seg self) (i + k - 1) x) in
  write (set_seg seg');;
  let* self := read in
  let* span' := lift (setitem (span self) (i + k - 1) (i, i + 1)) in
  write (set_span span').

(** [__init__]; the constructor returns the object, or raises. *)
Definition init (a : list (option T)) (op : T → T → T) : Res t :=
  let n := len a in
  let k := 2 ^ _ceil_log_2 n in     (* Number of leaves (padded) *)
  let l := 2 * k - 1 in             (* Number of nodes *)
  let self :=
    mk n (op_none op)
       ((λ _, None) <$> range l)
       ((λ _, (n, n)) <$> range l)
       l in
  let body :=
    for_ (range n) (init_leaf a k);;
    for_ (range_down (k - 2)) (λ i, join_children i;; join_spans i) in
  match body self with
  | (Ok _, self) => Ok self
  | (Raise e, _) => Raise e
  end.

(** The message of the [IndexError] of [query]:
    [f'[L,R] = [{L},{R}] but segtree only has {self.n} elements'] *)
Definition query_msg (L R n : Z) : string :=
  "[L,R] = [" +:+ str L +:+ "," +:+ str R +:+
  "] but segtree only has " +:+ str n +:+ " elements".

(** [_help_me_query]. The node index [i] is a natural number: the
    helper is entered by [query] at the root [0] and calls itself on
    [2*i+1] and [2*i+2] only. An index past the end of [span] raises,
    which bounds the recursion. *)
Equations? _help_me_query (self : t) (L R : Z) (i : nat) : Res (option T)
  by wf (length (span self) - i)%nat lt :=
  _help_me_query self L R i with getitem (span self) (Z.of_nat i) := {
    | Raise e => Raise e
    | Ok (L_0, R_0) with (L =? L_0) && (R =? R_0) := {
        | true => getitem (seg self) (Z.of_nat i)
        | false with inspect (getitem (span self) (Z.of_nat (2 * i + 1))) := {
            | Raise e ↾ _ => Raise e
            | Ok (_, m) ↾ Hl
                with inspect (getitem (span self) (Z.of_nat (2 * i + 2))) := {
                | Raise e ↾ _ => Raise e
                | Ok (_, r) ↾ Hr =>
                    if R <=? m then
                      _help_me_query self L R (2 * i + 1)
                    else if L >=? m then
                      _help_me_query self L R (2 * i + 2)
                    else
                      let? ans_L := _help_me_query self L m (2 * i + 1) in
                      let? ans_R := _help_me_query self m R (2 * i + 2) in
                      Ok (op self ans_L ans_R) } } } }.
Proof.
  all: apply getitem_nat_Ok in Hl as [_ Hl%lookup_lt_Some].
  all: apply getitem_nat_Ok in Hr as [_ Hr%lookup_lt_Some].
  all: lia.
Qed.

(** [query] *)
Definition query (L R : Z) : M t (option T) :=
  let* self := read in
  if (L <? 0) || (R >? n self) || (L >=? R) then
    raise (IndexError (query_msg L R (n self)))
  else
    lift (_help_me_query self L R 0).

(** The message of the [IndexError] of [update] and [get]:
    [f'Getting from index out of range: ind = {ind}'] *)
Definition index_msg (ind : Z) : string :=
  "Getting from index out of range: ind = " +:+ str ind.

(** The index shift of [update] and [get]:
    [if ind < 0: ind += self.n] *)
Definition shift (n ind : Z) : Z :=
  if ind <? 0 then ind + n else ind.

(** The loop of [update]:
    [while i > 0:
       i = (i-1)//2
       self.seg[i] = self.op(self.seg[2*i+1], self.seg[2*i+2])] *)
Equations? update_loop (i : Z) (self : t) : Res unit * t
  by wf (Z.to_nat i) lt :=
  update_loop i self with decide (i > 0) := {
    | left Hgt with join_children ((i - 1) `div` 2) self := {
        | (Ok _, self') => update_loop ((i - 1) `div` 2) self'
        | (Raise e, self') => (Raise e, self') }
    | right _ => (Ok tt, self) }.
Proof.
  assert ((i - 1) `div` 2 < i) by (apply Z.div_lt_upper_bound; lia).
  assert (0 <= (i - 1) `div` 2) by (apply Z.div_pos; lia). lia.
Qed.

(** [update] *)
Definition update (ind : Z) (val : option T) : M t unit :=
  let* self := read in
  if (ind >=? n self) || (ind <? - n self) then
    raise (IndexError (index_msg ind))
  else
    let ind := shift (n self) ind in
    let k := l self `div` 2 in         (* Number of non-leaf nodes *)
    let i := k + ind in                (* Index of [ind:ind+1] in seg *)
    let* seg' := lift (setitem (seg self) i val) in
    write (set_seg seg');;
    update_loop i.

(** [get] *)
Definition get (ind : Z) : M t (option T) :=
  let* self := read in
  if (ind >=? n self) || (ind <? - n self) then
    raise (IndexError (index_msg ind))
  else
    let ind := shift (n self) ind in
    let k := l self `div` 2 in         (* Number of non-leaf nodes *)
    let i := k + ind in                (* Index of [ind:ind+1] in seg *)
    lift (getitem (seg self) i).

(** [arr] *)
Definition arr : M t (list (option T)) :=
  let* self := read in
  let k := l self `div` 2 in           (* Number of non-leaf nodes *)
  ret (slice (seg self) k (k + n self)).

(** *** What the tree stands for *)

(** A call of a public method, and the object it leaves behind, whether
    it returned or raised. *)
Inductive call : Type :=
| Query (L R : Z)
| Update (ind : Z) (val : option T)
| Get (ind : Z)
| Arr.

Definition after (c : call) (self : t) : t :=
  match c with
  | Query L R => (query L R self).2
  | Update ind val => (update ind val self).2
  | Get ind => (get ind self).2
  | Arr => (arr self).2
  end.

(** The exception a call raises, if it raises one. *)
Definition raised (c : call) (self : t) : option exn :=
  let caught {A} (r : Res A) : option exn :=
    match r with Ok _ => None | Raise e => Some e end in
  match c with
  | Query L R => caught (query L R self).1
  | Update ind val => caught (update ind val self).1
  | Get ind => caught (get ind self).1
  | Arr => caught (arr self).1
  end.

(** The trees a caller can obtain with the join operator [f]: the ones
    [__init__] returns, and the object left by any call on such a tree. *)
Inductive reachable (f : T → T → T) : t → Prop :=
| reach_init a self : init a f = Ok self → reachable f self
| reach_call c self : reachable f self → reachable f (after c self).

(** Node [i] of [seg] is the join of its two children. *)
Definition seg_joined (self : t) (i : nat) : Prop :=
  ∃ x y, seg self !! (2 * i + 1)%nat = Some x ∧
         seg self !! (2 * i + 2)%nat = Some y ∧
         seg self !! i = Some (op self x y).

(** Node [i] of [span] runs from the left end of its left child to the
    right end of its right child. *)
Definition span_joined (self : t) (i : nat) : Prop :=
  ∃ lc rc, span self !! (2 * i + 1)%nat = Some lc ∧
           span self !! (2 * i + 2)%nat = Some rc ∧
           span self !! i = Some (lc.1, rc.2).

(** Leaf [j] of a tree with [K] padded leaves over the array [a]: the
    item [a[j]] with the span [[j, j+1]], or past the end of [a] the
    padding [None] with the empty span [[n, n]]. *)
Definition leaf_of (a : list (option T)) (K : nat) (self : t) (j : nat) : Prop :=
  seg self !! (K - 1 + j)%nat = Some (default None (a !! j)) ∧
  span self !! (K - 1 + j)%nat =
    Some (Z.of_nat (j `min` List.length a), Z.of_nat (S j `min` List.length a)).

(** The fields other than the cells: sizes and operator. *)
Record framed (f : T → T → T) (a : list (option T)) (K : nat) (self : t) : Prop := {
  fr_op : op self = op_none f;
  fr_n : n self = len a;
  fr_l : l self = 2 * Z.of_nat K - 1;
  fr_K : (1 ≤ K)%nat;
  fr_a : (List.length a ≤ K)%nat;
  fr_seg : List.length (seg self) = (2 * K - 1)%nat;
  fr_span : List.length (span self) = (2 * K - 1)%nat
}.

(** [self] is a well-formed tree with [K] padded leaves whose underlying
    array is [a]. *)
Record shaped (f : T → T → T) (a : list (option T)) (K : nat) (self : t) : Prop := {
  sh_frame : framed f a K self;
  sh_leaf : ∀ j, (j < K)%nat → leaf_of a K self j;
  sh_seg : ∀ i, (i < K - 1)%nat → seg_joined self i;
  sh_span : ∀ i, (i < K - 1)%nat → span_joined self i
}.

(** The join of a stretch of cells, [None] when it is empty. *)
Definition agg (f : T → T → T) (xs : list (option T)) : option T :=
  foldr (op_none f) None xs.

(** The items [a[p]], ..., [a[q-1]]. *)
Definition sub {A} (p q : nat) (a : list A) : list A :=
  take (q - p) (drop p a).

(** Node [i] is the root of the perfect subtree of height [h] over the
    padded leaves [lo], ..., [lo + 2^h - 1]. *)
Definition node_at (K h i lo : nat) : Prop :=
  ((i + 1) * 2 ^ h = K + lo ∧ lo + 2 ^ h ≤ K)%nat.

(** The state of the first loop of [__init__] once the leaves below
    [j] are filled. *)
Definition leaves_upto (a : list (option T)) (K j : nat) (self : t) : Prop :=
  ∀ p, (p < K)%nat →
    seg self !! (K - 1 + p)%nat =
      Some (if decide (p < j)%nat then default None (a !! p) else None) ∧
    span self !! (K - 1 + p)%nat =
      Some (if decide (p < j)%nat then (Z.of_nat p, Z.of_nat p + 1)
            else (len a, len a)).

(** The state of the second loop once the nodes from [c] up are
    joined. *)
Definition joined_from (K c : nat) (self : t) : Prop :=
  ∀ i, (c ≤ i < K - 1)%nat → seg_joined self i ∧ span_joined self i.

(** [self] is a well-formed tree over [a]; the number of its padded
    leaves is a power of two. *)
Definition tree_of (f : T → T → T) (a : list (option T)) (self : t) : Prop :=
  ∃ e : nat, shaped f a (2 ^ e) self.

(** [[self.get(i) for i in inds]] *)
Fixpoint get_each (inds : list Z) : M t (list (option T)) :=
  match inds with
  | [] => ret []
  | i :: inds =>
      let* x := get i in
      let* xs := get_each inds in
      ret (x :: xs)
  end.

End Segtree.
Arguments t : clear implicits.
Arguments call : clear implicits.

(** That the message of every [IndexError] carries the size [n] of
    the tree: the size can be read off the message. *)
Definition messages_tell_size : Prop :=
  ∃ size_of : string → Z,
    ∀ (self : t Z) (c : call Z) (msg : string),
      reachable Z.add self →
      raised c self = Some (IndexError msg) → size_of msg = n self.

(** The tree over [[2, 4, 6, 8]] with the sum as join. *)
Definition demo : t Z :=
  mk 4 (op_none Z.add)
    [Some 20; Some 6; Some 14; Some 2; Some 4; Some 6; Some 8]
    [(0, 4); (0, 2); (2, 4); (0, 1); (1, 2); (2, 3); (3, 4)]
    7.

End Segtree.

(** ** A queue driven by a caller, and the list it stands for *)

Module QueueCalls.
Import Queue.
Section QueueCalls.
Context {T : Type}.

(** A call of a method of [Queue], and what it returns. *)
Inductive cmd : Type :=
| Enq (k : option T)
| Deq
| Clear
| Len.

Inductive reply : Type :=
| Done
| Item (x : option T)
| Count (c : Z).

Definition call (c : cmd) : M (Queue.t T) reply :=
  match c with
  | Enq k => enq k;; ret Done
  | Deq => let* x := deq in ret (Item x)
  | Clear => clear;; ret Done
  | Len => let* c := Queue.length in ret (Count c)
  end.

(** The calls [cs], first to last, and their replies. *)
Fixpoint calls (cs : list cmd) : M (Queue.t T) (list reply) :=
  match cs with
  | [] => ret []
  | c :: cs =>
      let* r := call c in
      let* rs := calls cs in
      ret (r :: rs)
  end.

(** The same calls on a plain list of items, front first. *)
Definition list_call (c : cmd) (q : list (option T)) : reply * list (option T) :=
  match c with
  | Enq k => (Done, q ++ [k])
  | Deq => match q with
           | [] => (Item None, [])
           | x :: q' => (Item x, q')
           end
  | Clear => (Done, [])
  | Len => (Count (len q), q)
  end.

Fixpoint list_calls (cs : list cmd) (q : list (option T)) : list reply :=
  match cs with
  | [] => []
  | c :: cs => let '(r, q') := list_call c q in r :: list_calls cs q'
  end.

End QueueCalls.
Arguments cmd : clear implicits.
Arguments reply : clear implicits.
End QueueCalls.

(** ** [Tests/Segtree_Test.py] *)

Module SegtreeTest.
Import Segtree.

(** The variables of the script that change: the tree [seggs], and the
    lines printed so far. *)
Record vars : Type := mk_vars {
  seggs : Segtree.t Z;
  printed : list string
}.

(** A method call on [seggs]. *)
Definition on_seggs {A} (c : M (Segtree.t Z) A) : M vars A :=
  λ v, let '(r, self) := c (seggs v) in (r, mk_vars self (printed v)).

(** [print(line)] *)
Definition print (line : string) : M vars unit :=
  write (λ v, mk_vars (seggs v) (printed v ++ [line])).

(** [if s != s0: print(line)], for the value [s] a method returned and
    the [int] [s0]. *)
Definition check_eq (s : option Z) (s0 : Z) (line : string) : M vars unit :=
  if bool_decide (s = Some s0) then ret tt else print line.

(** The two loops that compare every [query(i, j)] with [sum(b[i:j])]:
    [for i in range(50):
       for j in range(i+1,51):
         s0 = sum(b[i:j]); s = seggs.query(i,j)
         if s != s0: print(f'{tag}[L:R] = [{i},{j}] failed')] *)
Definition test_query (tag : string) (b : list Z) : M vars unit :=
  for_ (range 50) (λ i,
    for_ (range2 (i + 1) 51) (λ j,
      let s0 := sum (slice b i j) in
      let* s := on_seggs (query i j) in
      check_eq s s0
        (tag +:+ "[L:R] = [" +:+ str i +:+ "," +:+ str j +:+ "] failed"))).

(** [for i in range(-50,50):
       v0 = a[i]; v = seggs.get(i)
       if v != v0: print(f'seggs.get({i}) failed')] *)
Definition test_get (a : list Z) : M vars unit :=
  for_ (range2 (-50) 50) (λ i,
    let* v0 := lift (getitem a i) in
    let* v := on_seggs (get i) in
    check_eq v v0 ("seggs.get(" +:+ str i +:+ ") failed")).

(** [for i in range(50): seggs.update(i, i)] *)
Definition test_update : M vars unit :=
  for_ (range 50) (λ i, on_seggs (update i (Some i))).

(** [copy = seggs.arr()
     for i in range(50):
       if i != copy[i]: print(f'Array copy index {i} wrong')] *)
Definition test_arr : M vars unit :=
  let* copy := on_seggs arr in
  for_ (range 50) (λ i,
    let* c := lift (getitem copy i) in
    check_eq c i ("Array copy index " +:+ str i +:+ " wrong")).

(** The script, for the list [a] that [randrange] draws: the lines it
    prints, or the exception that stops it. *)
Definition script (a : list Z) : Res (list string) :=
  let? self := init (Some <$> a) Z.add in
  let a_ := range 50 in
  let body :=
    test_query "" a;;
    test_get a;;
    test_update;;
    test_query "updated " a_;;
    test_arr in
  match body (mk_vars self []) with
  | (Ok _, v) => Ok (printed v)
  | (Raise e, _) => Raise e
  end.

End SegtreeTest.


(** * Properties *)

(** ** Python lists *)

Lemma bind_ok {S A B} (c : M S A) (k : A → M S B) (s s' : S) (a : A) :
  c s = (Ok a, s') → bind c k s = k a s'.
Proof. unfold bind. by intros ->. Qed.

Section py_facts.
Context {A : Type}.
Implicit Types l : list A.

Lemma pop_snoc l x : pop (l ++ [x]) = Some (l, x).
Proof.
  induction l as [|y l IH]; [done|]. simpl. by rewrite IH.
Qed.

Lemma pop_None l : pop l = None → l = [].
Proof.
  destruct l as [|x l]; [done|]. simpl. by destruct (pop l) as [[]|].
Qed.

Lemma pop_Some l r y : pop l = Some (r, y) → l = r ++ [y].
Proof.
  revert r. induction l as [|x l IH]; intros r; [done|].
  simpl. destruct (pop l) as [[r' y']|] eqn:E.
  - intros [= <- <-]. by rewrite (IH r' eq_refl).
  - intros [= <- <-]. by rewrite (pop_None l E).
Qed.

Lemma len_app l1 l2 : len (l1 ++ l2) = len l1 + len l2.
Proof. unfold len. rewrite length_app. lia. Qed.

Lemma len_nonneg l : 0 <= len l.
Proof. unfold len. lia. Qed.

Lemma len_0 l : len l = 0 → l = [].
Proof. unfold len. destruct l; [done|simpl; lia]. Qed.

Lemma norm_index_at l (z : Z) (p : nat) :
  z = Z.of_nat p → (p < length l)%nat → norm_index l z = Some p.
Proof.
  intros -> Hp. unfold norm_index, len.
  destruct (Z.ltb_spec (Z.of_nat p) 0); [lia|].
  destruct (Z.leb_spec 0 (Z.of_nat p)); [|lia]. simpl.
  destruct (Z.ltb_spec (Z.of_nat p) (Z.of_nat (length l))); [|lia].
  by rewrite Nat2Z.id.
Qed.

Lemma getitem_at l (z : Z) (p : nat) x :
  z = Z.of_nat p → l !! p = Some x → getitem l z = Ok x.
Proof. intros -> Hx. by rewrite getitem_nat, Hx. Qed.

Lemma setitem_at l (z : Z) (p : nat) x :
  z = Z.of_nat p → (p < length l)%nat → setitem l z x = Ok (<[p:=x]> l).
Proof. intros Hz Hp. unfold setitem. by rewrite (norm_index_at l z p). Qed.

Lemma range_length (m : Z) : length (range m) = Z.to_nat m.
Proof. unfold range. by rewrite length_fmap, length_seq. Qed.

Lemma const_range_lookup (c : A) (m : Z) (p : nat) :
  (p < Z.to_nat m)%nat → ((λ _, c) <$> range m) !! p = Some c.
Proof.
  intros Hp. rewrite list_lookup_fmap. unfold range.
  rewrite list_lookup_fmap, lookup_seq_lt by done. done.
Qed.

Lemma range_down_S (c : nat) :
  range_down (Z.of_nat (S c) - 1) = Z.of_nat c :: range_down (Z.of_nat c - 1).
Proof.
  unfold range_down, range.
  replace (Z.to_nat (Z.of_nat (S c) - 1 + 1)) with (S c) by lia.
  replace (Z.to_nat (Z.of_nat c - 1 + 1)) with c by lia.
  rewrite seq_S, fmap_app, reverse_app. done.
Qed.

(** A slice with both bounds inside the list. *)
Lemma slice_at l (lo hi : Z) (p q : nat) :
  lo = Z.of_nat p → hi = Z.of_nat q → (p ≤ q ≤ length l)%nat →
  slice l lo hi = take (q - p) (drop p l).
Proof.
  intros -> -> Hpq. unfold slice, clamp, len.
  destruct (Z.ltb_spec (Z.of_nat p) 0); [lia|].
  destruct (Z.ltb_spec (Z.of_nat q) 0); [lia|].
  by rewrite !Z.max_l, !Z.min_l, !Nat2Z.id by lia.
Qed.
End py_facts.

(** ** The queue *)

Module QueueSpec.
Import Queue.
Section QueueSpec.
Context {T : Type}.
Implicit Types q : Queue.t T.
Implicit Types v x : option T.

(** One turn of the loop of [deq]. *)
Lemma transfer_unfold q :
  transfer q =
    if len (stack_1 q) =? 0 then (Ok tt, q)
    else match pop (stack_1 q) with
         | None => (Raise (IndexError "pop from empty list"), q)
         | Some (rest, next) =>
             transfer (set_stack_2 (stack_2 q ++ [next]) (set_stack_1 rest q))
         end.
Proof.
  funelim (transfer q).
  - by rewrite Hlen.
  - rewrite Hlen, Hpop. done.
  - rewrite Hlen, Hpop. done.
Qed.

(** The loop empties stack 1 onto stack 2 in reverse order. *)
Lemma transfer_spec (s1 s2 : list (option T)) (m : Z) :
  transfer (Queue.mk s1 s2 m) = (Ok tt, Queue.mk [] (s2 ++ reverse s1) m).
Proof.
  revert s2. induction s1 as [|x s1 IH] using rev_ind; intros s2.
  - rewrite transfer_unfold. simpl. by rewrite app_nil_r.
  - rewrite transfer_unfold. simpl.
    destruct (Z.eqb_spec (len (s1 ++ [x])) 0) as [E|_].
    { apply len_0 in E. by destruct s1. }
    rewrite pop_snoc. unfold set_stack_1, set_stack_2. simpl.
    rewrite IH, reverse_snoc. by rewrite <- app_assoc.
Qed.

Lemma enq_spec q v :
  ∃ q', enq v q = (Ok tt, q') ∧ contents q' = contents q ++ [v] ∧
        (counted q → counted q').
Proof.
  eexists. split; [reflexivity|]. destruct q as [s1 s2 m].
  unfold contents, counted. simpl. split.
  - by rewrite app_assoc.
  - rewrite len_app. unfold len. simpl. lia.
Qed.

Lemma deq_empty q : n q = 0 → deq q = (Ok None, q).
Proof.
  intros E. destruct q as [s1 s2 m]. simpl in E. subst m. reflexivity.
Qed.

Lemma deq_spec q x c :
  counted q → contents q = x :: c →
  ∃ q', deq q = (Ok x, q') ∧ contents q' = c ∧ counted q'.
Proof.
  destruct q as [s1 s2 m]. unfold counted, contents. simpl.
  intros -> Hc. unfold deq, bind, read. simpl.
  destruct (Z.eqb_spec (len s1 + len s2) 0) as [E|_].
  { pose proof (len_nonneg s1). pose proof (len_nonneg s2).
    rewrite (len_0 s1), (len_0 s2) in Hc by lia. done. }
  unfold write, set_n. simpl.
  destruct (Z.eqb_spec (len s2) 0) as [E|E].
  - apply len_0 in E. subst s2. rewrite transfer_spec.
    rewrite reverse_nil in Hc. simpl in Hc. subst s1.
    cbn [stack_2 app]. rewrite reverse_cons, pop_snoc.
    eexists. split; [reflexivity|]. simpl.
    rewrite reverse_involutive, app_nil_r. split; [done|].
    unfold len. rewrite length_reverse. simpl. lia.
  - unfold ret. cbn [stack_2].
    destruct (pop s2) as [[rest top]|] eqn:Hp.
    + apply pop_Some in Hp. subst s2. rewrite reverse_snoc in Hc.
      injection Hc as <- <-. eexists. split; [reflexivity|]. simpl.
      split; [done|]. rewrite len_app. unfold len. simpl. lia.
    + apply pop_None in Hp. by subst s2.
Qed.

Lemma deq_times_spec q c1 c2 :
  counted q → contents q = c1 ++ c2 →
  ∃ q', deq_times (List.length c1) q = (Ok c1, q') ∧ contents q' = c2 ∧
        counted q'.
Proof.
  revert q. induction c1 as [|x c1 IH]; intros q Hn Hc.
  - by exists q.
  - destruct (deq_spec q x (c1 ++ c2) Hn Hc) as (q1 & E1 & Hc1 & Hn1).
    destruct (IH q1 Hn1 Hc1) as (q2 & E2 & Hc2 & Hn2).
    exists q2. simpl. unfold bind. rewrite E1, E2. done.
Qed.

Lemma enq_all_spec q vs :
  counted q →
  ∃ q', enq_all vs q = (Ok tt, q') ∧ contents q' = contents q ++ vs ∧
        counted q'.
Proof.
  revert q. induction vs as [|v vs IH]; intros q Hn.
  - exists q. by rewrite app_nil_r.
  - destruct (enq_spec q v) as (q1 & E1 & Hc1 & Hn1).
    destruct (IH q1 (Hn1 Hn)) as (q2 & E2 & Hc2 & Hn2).
    exists q2. simpl. unfold bind at 1. rewrite E1, E2, Hc2, Hc1.
    by rewrite <- app_assoc.
Qed.

Lemma contents_nil q : counted q → contents q = [] → n q = 0.
Proof.
  unfold counted, contents. intros -> [E2 E1]%app_eq_nil. rewrite E1.
  destruct (stack_2 q) as [|y s]; [done|].
  rewrite reverse_cons in E2. by destruct (reverse s).
Qed.

Lemma reachable_counted q : reachable q → counted q.
Proof.
  induction 1 as [|q k _ IH|q _ IH|q _ IH|q _ IH].
  - reflexivity.
  - destruct (enq_spec q k) as (q1 & -> & _ & Hn1). by apply Hn1.
  - destruct (contents q) as [|x c] eqn:Hc.
    + rewrite deq_empty; [done|]. by apply contents_nil.
    + by destruct (deq_spec q x c IH Hc) as (q1 & -> & _ & Hn1).
  - reflexivity.
  - done.
Qed.

(** C4. Starting from an empty queue, enqueueing [v1 .. vk] and then
    dequeueing [k] times returns [v1, v2, ..., vk] in that order (and
    leaves the queue empty). *)
Theorem fifo_order (vs : list (option T)) :
  ∃ q', (enq_all vs;; deq_times (List.length vs)) init = (Ok vs, q') ∧
        contents q' = [] ∧ n q' = 0.
Proof.
  destruct (enq_all_spec init vs eq_refl) as (q1 & E1 & Hc1 & Hn1).
  destruct (deq_times_spec q1 vs [] Hn1) as (q2 & E2 & Hc2 & Hn2).
  { by rewrite Hc1, app_nil_r. }
  exists q2. unfold bind. rewrite E1, E2. split; [done|]. split; [done|].
  by apply contents_nil.
Qed.

(** C8. [deq] on a queue whose count is 0 returns [None] without
    raising and leaves the queue as it was; and on every queue a caller
    can obtain, none of [enq], [deq], [clear], [len] raises. *)
Theorem queue_never_raises (q : Queue.t T) :
  (n q = 0 → deq q = (Ok None, q)) ∧
  (reachable q →
     (∀ k, is_ok (enq k q).1 = true) ∧ is_ok (deq q).1 = true ∧
     is_ok (clear q).1 = true ∧ is_ok (length q).1 = true).
Proof.
  split; [apply deq_empty|]. intros Hr%reachable_counted.
  split; [done|]. split; [|done].
  destruct (contents q) as [|x c] eqn:Hc.
  - rewrite deq_empty; [done|]. by apply contents_nil.
  - by destruct (deq_spec q x c Hr Hc) as (q1 & -> & _).
Qed.

End QueueSpec.
End QueueSpec.

(** ** The segment tree: the size of the padded tree *)

Module SegtreeSize.
Import Segtree.

(** One turn of the loop of [_ceil_log_2]. *)
Lemma ceil_log_2_loop_unfold (n ans : Z) (exact : bool) :
  ceil_log_2_loop n ans exact =
    if decide (n > 1)
    then ceil_log_2_loop (n ≫ 1) (ans + 1)
           (if n `mod` 2 =? 1 then false else exact)
    else (ans, exact).
Proof.
  funelim (ceil_log_2_loop n ans exact);
    match goal with H : decide _ = _ |- _ => rewrite H end; done.
Qed.

(** The loop counts the bits after the first ([e], the floor of the
    binary logarithm) and clears [exact] unless [n] is [2^e]. *)
Lemma ceil_log_2_loop_spec (n : Z) :
  1 <= n →
  ∃ e, 0 <= e ∧ 2 ^ e <= n < 2 ^ (e + 1) ∧
       ∀ ans exact,
         ceil_log_2_loop n ans exact = (ans + e, exact && (n =? 2 ^ e)).
Proof.
  intros Hn. assert (0 <= n) as Hn0 by lia. revert Hn.
  pattern n. apply Z_lt_induction; [|done].
  clear n Hn0. intros n IH Hn.
  destruct (decide (n > 1)) as [Hgt|Hle].
  - assert (n ≫ 1 = n `div` 2) as Hsh
      by (rewrite Z.shiftr_div_pow2 by lia; done).
    pose proof (Z.div_mod n 2 ltac:(lia)) as Hdm.
    pose proof (Z.mod_pos_bound n 2 ltac:(lia)) as Hm.
    destruct (IH (n `div` 2)) as (e & He & [Hlo Hhi] & Hloop); [lia..|].
    exists (e + 1). rewrite !Z.pow_add_r, Z.pow_1_r in * by lia.
    split; [lia|]. split; [lia|]. intros ans exact.
    rewrite ceil_log_2_loop_unfold. rewrite decide_True by done.
    rewrite Hsh, Hloop. f_equal; [lia|].
    destruct (Z.eqb_spec (n `mod` 2) 1) as [E|E].
    + rewrite andb_false_l. symmetry.
      rewrite andb_false_iff. right. apply Z.eqb_neq. lia.
    + f_equal. destruct (Z.eqb_spec (n `div` 2) (2 ^ e)),
        (Z.eqb_spec n (2 ^ e * 2)); try done; lia.
  - assert (n = 1) as -> by lia. exists 0. split; [done|]. split; [done|].
    intros ans exact. rewrite ceil_log_2_loop_unfold.
    rewrite decide_False by done. rewrite andb_true_r. f_equal. lia.
Qed.

(** For [n >= 1], [_ceil_log_2 n] is the least exponent [c] with
    [n <= 2^c], that is the ceiling of the binary logarithm. *)
Lemma ceil_log_2_spec (n : Z) :
  1 <= n →
  0 <= _ceil_log_2 n ∧ n <= 2 ^ _ceil_log_2 n ∧
  ∀ j, 0 <= j → n <= 2 ^ j → _ceil_log_2 n <= j.
Proof.
  intros Hn. destruct (ceil_log_2_loop_spec n Hn) as (e & He & [Hlo Hhi] & Hloop).
  unfold _ceil_log_2. rewrite Hloop. simpl.
  destruct (Z.eqb_spec n (2 ^ e)) as [E|E].
  - rewrite Z.add_0_l. split; [done|]. split; [lia|]. intros j Hj Hle.
    destruct (Z.le_gt_cases e j) as [|Hlt]; [done|]. exfalso.
    assert (2 ^ j < 2 ^ e) by (apply Z.pow_lt_mono_r; lia). lia.
  - rewrite Z.add_0_l. split; [lia|]. split; [lia|]. intros j Hj Hle.
    destruct (Z.le_gt_cases (e + 1) j) as [|Hlt]; [done|]. exfalso.
    assert (2 ^ j <= 2 ^ e) by (apply Z.pow_le_mono_r; lia). lia.
Qed.

(** Below 1 the loop does not run. *)
Lemma ceil_log_2_small (n : Z) : n <= 1 → _ceil_log_2 n = 0.
Proof.
  intros Hn. unfold _ceil_log_2. rewrite ceil_log_2_loop_unfold.
  by rewrite decide_False by lia.
Qed.

Lemma ceil_log_2_nonneg (n : Z) : 0 <= _ceil_log_2 n.
Proof.
  destruct (Z.le_gt_cases n 0).
  - rewrite ceil_log_2_small; lia.
  - apply ceil_log_2_spec. lia.
Qed.

End SegtreeSize.

(** ** The segment tree: construction *)

Module SegtreeBuild.
Import Segtree SegtreeSize.
Section SegtreeBuild.
Context {T : Type} (f : T → T → T).
Implicit Types self : Segtree.t T.
Implicit Types a : list (option T).

Lemma for_cons {S} (i : Z) (xs : list Z) (body : Z → M S unit) :
  for_ (i :: xs) body = (body i;; for_ xs body).
Proof. done. Qed.

Lemma join_children_at self (i : nat) x y :
  seg self !! (2 * i + 1)%nat = Some x →
  seg self !! (2 * i + 2)%nat = Some y →
  join_children (Z.of_nat i) self =
    (Ok tt, set_seg (<[i:=op self x y]> (seg self)) self).
Proof.
  intros Hx Hy. unfold join_children, bind, read, lift, write.
  rewrite (getitem_at _ _ (2 * i + 1) x) by (done || lia).
  rewrite (getitem_at _ _ (2 * i + 2) y) by (done || lia).
  apply lookup_lt_Some in Hx.
  rewrite (setitem_at _ _ i) by (done || lia). done.
Qed.

Lemma join_spans_at self (i : nat) lc rc :
  span self !! (2 * i + 1)%nat = Some lc →
  span self !! (2 * i + 2)%nat = Some rc →
  join_spans (Z.of_nat i) self =
    (Ok tt, set_span (<[i:=(lc.1, rc.2)]> (span self)) self).
Proof.
  intros Hx Hy. unfold join_spans, bind, read, lift, write.
  rewrite (getitem_at _ _ (2 * i + 1) lc) by (done || lia).
  rewrite (getitem_at _ _ (2 * i + 2) rc) by (done || lia).
  apply lookup_lt_Some in Hx.
  rewrite (setitem_at _ _ i) by (done || lia). done.
Qed.

Lemma init_leaf_at a (K : nat) self (j : nat) x :
  a !! j = Some x → (1 ≤ K)%nat →
  (K - 1 + j < length (seg self))%nat →
  (K - 1 + j < length (span self))%nat →
  init_leaf a (Z.of_nat K) (Z.of_nat j) self =
    (Ok tt,
     set_span (<[(K - 1 + j)%nat:=(Z.of_nat j, Z.of_nat j + 1)]> (span self))
       (set_seg (<[(K - 1 + j)%nat:=x]> (seg self)) self)).
Proof.
  intros Hx HK Hseg Hspan. unfold init_leaf, bind, read, lift, write.
  rewrite (getitem_at _ _ j x) by done.
  rewrite (setitem_at _ _ (K - 1 + j)) by (done || lia). simpl.
  rewrite (setitem_at _ _ (K - 1 + j)) by (done || lia). done.
Qed.


Lemma leaf_loop a (K : nat) (c : nat) : ∀ (s : nat) self,
  (s + c = length a)%nat →
  framed f a K self → leaves_upto a K s self →
  ∃ self', for_ (Z.of_nat <$> seq s c) (init_leaf a (Z.of_nat K)) self
             = (Ok tt, self') ∧
           framed f a K self' ∧ leaves_upto a K (length a) self'.
Proof.
  induction c as [|c IH]; intros s self Hsc Hfr Hlv.
  { exists self. rewrite Nat.add_0_r in Hsc. by subst s. }
  destruct Hfr as [Hop Hn Hl HK Ha Hseg Hspan].
  destruct (lookup_lt_is_Some_2 a s ltac:(lia)) as [x Hx].
  change (seq s (S c)) with (s :: seq (S s) c).
  rewrite fmap_cons, for_cons. unfold bind at 1.
  rewrite (init_leaf_at a K self s x) by (done || lia).
  match goal with |- context [for_ _ _ ?s1] => set (self1 := s1) end.
  destruct (IH (S s) self1) as (self' & E & Hfr' & Hlv'); [lia| | |].
  - split; simpl; rewrite ?length_insert; done.
  - intros p Hp. destruct (Hlv p Hp) as [Hps Hpn]. simpl.
    destruct (decide (p = s)) as [->|Hne].
    + rewrite !list_lookup_insert_eq by lia.
      rewrite !decide_True by lia. by rewrite Hx.
    + rewrite !list_lookup_insert_ne by lia. rewrite Hps, Hpn.
      destruct (decide (p < s)%nat), (decide (p < S s)%nat); done || lia.
  - exists self'. by rewrite E.
Qed.


Lemma seg_joined_insert self (i j : nat) v :
  (j < i)%nat → seg_joined self i →
  seg_joined (set_seg (<[j:=v]> (seg self)) self) i.
Proof.
  intros Hj (x & y & Hx & Hy & Hi). exists x, y. simpl.
  rewrite !list_lookup_insert_ne by lia. done.
Qed.

Lemma span_joined_insert self (i j : nat) v :
  (j < i)%nat → span_joined self i →
  span_joined (set_span (<[j:=v]> (span self)) self) i.
Proof.
  intros Hj (x & y & Hx & Hy & Hi). exists x, y. simpl.
  rewrite !list_lookup_insert_ne by lia. done.
Qed.

Lemma node_loop a (K : nat) (c : nat) : ∀ self,
  (c ≤ K - 1)%nat →
  framed f a K self → (∀ j, (j < K)%nat → leaf_of a K self j) →
  joined_from K c self →
  ∃ self', for_ (range_down (Z.of_nat c - 1))
             (λ i, join_children i;; join_spans i) self = (Ok tt, self') ∧
           framed f a K self' ∧ (∀ j, (j < K)%nat → leaf_of a K self' j) ∧
           joined_from K 0 self'.
Proof.
  induction c as [|c IH]; intros self Hc Hfr Hlv Hjn.
  { exists self. done. }
  destruct Hfr as [Hop Hn Hl HK Ha Hseg Hspan].
  destruct (lookup_lt_is_Some_2 (seg self) (2 * c + 1) ltac:(lia)) as [x Hx].
  destruct (lookup_lt_is_Some_2 (seg self) (2 * c + 2) ltac:(lia)) as [y Hy].
  destruct (lookup_lt_is_Some_2 (span self) (2 * c + 1) ltac:(lia)) as [lc Hlc].
  destruct (lookup_lt_is_Some_2 (span self) (2 * c + 2) ltac:(lia)) as [rc Hrc].
  rewrite range_down_S, for_cons. unfold bind at 1 2.
  rewrite (join_children_at self c x y) by done.
  rewrite (join_spans_at _ c lc rc) by done.
  match goal with |- context [for_ _ _ ?s1] => set (self1 := s1) end.
  destruct (IH self1) as (self' & E & Hfr' & Hlv' & Hjn'); [lia| | | |].
  - split; simpl; rewrite ?length_insert; done.
  - intros j Hj. destruct (Hlv j Hj) as [Hs Hp]. split; simpl.
    + rewrite list_lookup_insert_ne by lia. done.
    + rewrite list_lookup_insert_ne by lia. done.
  - intros i Hi. destruct (decide (i = c)) as [->|Hne].
    + split.
      * exists x, y. simpl. rewrite !list_lookup_insert_ne by lia.
        rewrite list_lookup_insert_eq by lia. done.
      * exists lc, rc. simpl. rewrite !list_lookup_insert_ne by lia.
        rewrite list_lookup_insert_eq by lia. done.
    + destruct (Hjn i ltac:(lia)) as [Hsj Hpj]. split.
      * apply (seg_joined_insert self i c (op self x y)) in Hsj; [|lia].
        destruct Hsj as (x' & y' & ? & ? & ?). by exists x', y'.
      * apply (span_joined_insert self i c (lc.1, rc.2)) in Hpj; [|lia].
        destruct Hpj as (x' & y' & ? & ? & ?). by exists x', y'.
  - exists self'. by rewrite E.
Qed.

(** [__init__] returns, and what it returns is a well-formed tree over
    [a] with [2 ^ _ceil_log_2 (len a)] padded leaves. *)
Lemma init_shaped a :
  ∃ self, init a f = Ok self ∧
          shaped f a (Z.to_nat (2 ^ _ceil_log_2 (len a))) self.
Proof.
  pose proof (ceil_log_2_nonneg (len a)) as He.
  set (k := 2 ^ _ceil_log_2 (len a)).
  assert (1 <= k) as Hk1.
  { unfold k. pose proof (Z.pow_pos_nonneg 2 (_ceil_log_2 (len a))). lia. }
  assert (len a <= k) as Hak.
  { destruct (Z.le_gt_cases 1 (len a)) as [H1|H1].
    - by apply ceil_log_2_spec.
    - lia. }
  set (K := Z.to_nat k). assert (k = Z.of_nat K) as HkK by lia.
  unfold init. fold k. rewrite HkK.
  set (self0 := Segtree.mk _ _ _ _ _).
  assert (framed f a K self0) as Hfr0.
  { unfold len in Hak. split; simpl; try done; try lia.
    - rewrite length_fmap, range_length. lia.
    - rewrite length_fmap, range_length. lia. }
  destruct (leaf_loop a K (length a) 0 self0) as (self1 & E1 & Hfr1 & Hlv1);
    [done|done| |].
  { intros p Hp. simpl.
    split; apply const_range_lookup; lia. }
  unfold range at 1, len at 1. rewrite Nat2Z.id.
  rewrite (bind_ok _ _ _ _ _ E1).
  destruct (node_loop a K (K - 1) self1) as (self2 & E2 & Hfr2 & Hlv2 & Hjn2);
    [done|done| |by intros i Hi; lia|].
  { intros j Hj. destruct (Hlv1 j Hj) as [Hs Hp]. split.
    - rewrite Hs. destruct (decide (j < length a)%nat) as [|Hge]; [done|].
      by rewrite lookup_ge_None_2 by lia.
    - rewrite Hp. unfold len. f_equal.
      destruct (decide (j < length a)%nat); f_equal; lia. }
  replace (Z.of_nat K - 2) with (Z.of_nat (K - 1) - 1) by lia.
  rewrite E2. exists self2. split; [done|].
  split; [done|done|..]; intros i Hi; apply Hjn2; lia.
Qed.

End SegtreeBuild.
End SegtreeBuild.

(** ** The segment tree: [update], [get] and [arr] on a well-formed tree *)

Module SegtreeUpdate.
Import Segtree SegtreeSize SegtreeBuild.
Section SegtreeUpdate.
Context {T : Type} (f : T → T → T).
Implicit Types self : Segtree.t T.
Implicit Types a : list (option T).

(** One turn of the loop of [update]. *)
Lemma update_loop_unfold (i : Z) self :
  update_loop i self =
    if decide (i > 0) then
      match join_children ((i - 1) `div` 2) self with
      | (Ok _, self') => update_loop ((i - 1) `div` 2) self'
      | (Raise e, self') => (Raise e, self')
      end
    else (Ok tt, self).
Proof.
  funelim (update_loop i self);
    repeat match goal with
           | H : decide _ = _ |- _ => rewrite H
           | H : join_children _ _ = _ |- _ => rewrite H
           end; done.
Qed.

(** The position of the parent of node [p > 0]. *)
Lemma parent_nat (p : nat) :
  (0 < p)%nat → (Z.of_nat p - 1) `div` 2 = Z.of_nat ((p - 1) / 2).
Proof.
  intros Hp. rewrite Nat2Z.inj_div. f_equal. lia.
Qed.

Lemma parent_child (p : nat) :
  (0 < p)%nat →
  (2 * ((p - 1) / 2) + 1 = p ∨ 2 * ((p - 1) / 2) + 2 = p)%nat.
Proof.
  intros Hp. pose proof (Nat.div_mod_eq (p - 1) 2) as E.
  pose proof (Nat.mod_upper_bound (p - 1) 2 ltac:(lia)). lia.
Qed.

(** The loop of [update], entered at node [p] when every node is the
    join of its children except, possibly, the parent of [p]: it
    returns, and every node is the join of its children. *)
Lemma update_loop_spec a (K : nat) (p : nat) : ∀ self,
  (p < 2 * K - 1)%nat →
  framed f a K self → (∀ j, (j < K)%nat → leaf_of a K self j) →
  (∀ i, (i < K - 1)%nat → span_joined self i) →
  (∀ i, (i < K - 1)%nat → ¬ (2 * i + 1 = p ∨ 2 * i + 2 = p)%nat →
        seg_joined self i) →
  ∃ self', update_loop (Z.of_nat p) self = (Ok tt, self') ∧
           shaped f a K self'.
Proof.
  induction p as [p IH] using lt_wf_ind. intros self Hp Hfr Hlv Hsp Hsg.
  rewrite update_loop_unfold. destruct (decide (Z.of_nat p > 0)) as [Hgt|Hle].
  - assert (0 < p)%nat as Hp0 by lia. rewrite (parent_nat p Hp0).
    set (q := ((p - 1) / 2)%nat). pose proof (parent_child p Hp0) as Hq.
    fold q in Hq. destruct Hfr as [Hop Hn Hl HK Ha Hseg Hspan].
    destruct (lookup_lt_is_Some_2 (seg self) (2 * q + 1) ltac:(lia)) as [x Hx].
    destruct (lookup_lt_is_Some_2 (seg self) (2 * q + 2) ltac:(lia)) as [y Hy].
    rewrite (join_children_at self q x y) by done.
    apply IH; [lia|lia|..].
    + split; simpl; rewrite ?length_insert; done.
    + intros j Hj. destruct (Hlv j Hj) as [Hs Hpn]. split; simpl; [|done].
      rewrite list_lookup_insert_ne by lia. done.
    + intros i Hi. destruct (Hsp i Hi) as (lc & rc & ? & ? & ?).
      by exists lc, rc.
    + intros i Hi Hne. destruct (decide (i = q)) as [->|Hiq].
      * exists x, y. simpl. rewrite !list_lookup_insert_ne by lia.
        rewrite list_lookup_insert_eq by lia. done.
      * destruct (Hsg i Hi ltac:(lia)) as (x' & y' & ? & ? & ?).
        exists x', y'. simpl. rewrite !list_lookup_insert_ne by lia. done.
  - assert (p = 0)%nat as -> by lia. exists self. split; [done|].
    split; [done|done| |done]. intros i Hi. apply Hsg; [done|lia].
Qed.

Lemma shift_range (m ind : Z) :
  - m <= ind < m → 0 <= shift m ind < m.
Proof. unfold shift. destruct (Z.ltb_spec ind 0); lia. Qed.

(** A call out of range raises before it reads or writes a cell. *)
Lemma update_raises self (ind : Z) val :
  ¬ (- n self <= ind < n self) →
  update ind val self = (Raise (IndexError (index_msg ind)), self).
Proof.
  intros Hind. unfold update, bind, read.
  destruct (Z.geb_spec ind (n self)), (Z.ltb_spec ind (- n self));
    simpl; done || lia.
Qed.

Lemma get_raises self (ind : Z) :
  ¬ (- n self <= ind < n self) →
  get ind self = (Raise (IndexError (index_msg ind)), self).
Proof.
  intros Hind. unfold get, bind, read.
  destruct (Z.geb_spec ind (n self)), (Z.ltb_spec ind (- n self));
    simpl; done || lia.
Qed.

(** [update] in range returns, and leaves a well-formed tree over the
    array with the item at the shifted index replaced. *)
Lemma half_nodes (K : nat) :
  (1 ≤ K)%nat → (2 * Z.of_nat K - 1) `div` 2 = Z.of_nat (K - 1).
Proof. intros HK. symmetry. apply Z.div_unique with 1; lia. Qed.

Lemma update_shaped a (K : nat) self (ind : Z) val :
  shaped f a K self → - len a <= ind < len a →
  ∃ self', update ind val self = (Ok tt, self') ∧
           shaped f (<[Z.to_nat (shift (len a) ind):=val]> a) K self'.
Proof.
  intros [Hfr Hlv Hsg Hsp] Hind. pose proof Hfr as [Hop Hn Hl HK Ha Hseg Hspan].
  pose proof (shift_range _ _ Hind) as Hsh.
  assert (∃ j, shift (len a) ind = Z.of_nat j) as [j Hj]
    by (exists (Z.to_nat (shift (len a) ind)); lia).
  rewrite Hj, Nat2Z.id. rewrite Hj in Hsh. unfold len in Hsh.
  unfold update, bind at 1, read. rewrite Hn, Hl, Hj, (half_nodes K HK).
  destruct (Z.geb_spec ind (len a)); [lia|].
  destruct (Z.ltb_spec ind (- len a)); [lia|]. cbn [orb].
  unfold bind at 1, lift.
  rewrite (setitem_at _ _ (K - 1 + j)) by lia.
  unfold bind, write.
  replace (Z.of_nat (K - 1) + Z.of_nat j) with (Z.of_nat (K - 1 + j)) by lia.
  apply update_loop_spec; [lia|..].
  - split; simpl; rewrite ?length_insert; try done.
    unfold len. by rewrite length_insert.
  - intros p Hp. destruct (Hlv p Hp) as [Hs Hpn].
    unfold leaf_of. rewrite length_insert. split; simpl; [|done].
    destruct (decide (p = j)) as [->|Hne].
    + rewrite !list_lookup_insert_eq by lia. done.
    + rewrite !list_lookup_insert_ne by lia. done.
  - intros i Hi. destruct (Hsp i Hi) as (lc & rc & ? & ? & ?).
    by exists lc, rc.
  - intros i Hi Hne. destruct (Hsg i Hi) as (x & y & ? & ? & ?).
    exists x, y. simpl. rewrite !list_lookup_insert_ne by lia. done.
Qed.

(** [get] in range returns the item at the shifted index. *)
Lemma get_shaped a (K : nat) self (ind : Z) :
  shaped f a K self → - len a <= ind < len a →
  ∃ x, a !! Z.to_nat (shift (len a) ind) = Some x ∧
       get ind self = (Ok x, self).
Proof.
  intros [Hfr Hlv Hsg Hsp] Hind. pose proof Hfr as [Hop Hn Hl HK Ha Hseg Hspan].
  pose proof (shift_range _ _ Hind) as Hsh.
  assert (∃ j, shift (len a) ind = Z.of_nat j) as [j Hj]
    by (exists (Z.to_nat (shift (len a) ind)); lia).
  rewrite Hj, Nat2Z.id. rewrite Hj in Hsh. unfold len in Hsh.
  destruct (lookup_lt_is_Some_2 a j ltac:(lia)) as [x Hx].
  exists x. split; [done|].
  unfold get, bind, read, lift. rewrite Hn, Hl, Hj, (half_nodes K HK).
  destruct (Z.geb_spec ind (len a)); [lia|].
  destruct (Z.ltb_spec ind (- len a)); [lia|]. cbn [orb].
  destruct (Hlv j ltac:(lia)) as [Hs _]. rewrite Hx in Hs.
  rewrite (getitem_at _ _ (K - 1 + j) x); [done|lia|done].
Qed.

(** [arr] returns the underlying array. *)
Lemma arr_shaped a (K : nat) self :
  shaped f a K self → arr self = (Ok a, self).
Proof.
  intros [Hfr Hlv Hsg Hsp]. pose proof Hfr as [Hop Hn Hl HK Ha Hseg Hspan].
  unfold arr, bind, read, ret. f_equal. f_equal. rewrite Hn, Hl.
  rewrite (half_nodes K HK).
  rewrite (slice_at _ _ _ (K - 1) (K - 1 + length a))
    by (unfold len; lia).
  apply list_eq. intros i. destruct (decide (i < length a)%nat) as [Hi|Hi].
  - rewrite lookup_take_lt by lia. rewrite lookup_drop.
    destruct (Hlv i ltac:(lia)) as [-> _].
    by destruct (lookup_lt_is_Some_2 a i Hi) as [x ->].
  - rewrite lookup_take_ge by lia. by rewrite lookup_ge_None_2 by lia.
Qed.

End SegtreeUpdate.
End SegtreeUpdate.

(** ** The segment tree: [query] on a well-formed tree *)

Module SegtreeQuery.
Import Segtree SegtreeSize SegtreeBuild SegtreeUpdate.
Section SegtreeQuery.
Context {T : Type} (f : T → T → T).
Implicit Types self : Segtree.t T.
Implicit Types a : list (option T).

(** One call of [_help_me_query]. *)
Lemma help_me_query_unfold self (L R : Z) (i : nat) :
  _help_me_query self L R i =
    let? s := getitem (span self) (Z.of_nat i) in
    if (L =? s.1) && (R =? s.2) then getitem (seg self) (Z.of_nat i)
    else
      let? lc := getitem (span self) (Z.of_nat (2 * i + 1)) in
      let? rc := getitem (span self) (Z.of_nat (2 * i + 2)) in
      let m := lc.2 in
      if R <=? m then _help_me_query self L R (2 * i + 1)
      else if L >=? m then _help_me_query self L R (2 * i + 2)
      else
        let? ans_L := _help_me_query self L m (2 * i + 1) in
        let? ans_R := _help_me_query self m R (2 * i + 2) in
        Ok (op self ans_L ans_R).
Proof.
  funelim (_help_me_query self L R i);
    repeat match goal with
           | H : getitem _ _ = _ |- _ => rewrite H; cbn [rbind fst snd]
           | H : andb _ _ = _ |- _ => rewrite H
           end; done.
Qed.

(** A query out of range raises before it reads a cell. *)
Lemma query_raises self (L R : Z) :
  L < 0 ∨ R > n self ∨ L >= R →
  query L R self = (Raise (IndexError (query_msg L R (n self))), self).
Proof.
  intros H. unfold query, bind, read.
  destruct (Z.ltb_spec L 0), (Z.gtb_spec R (n self)), (Z.geb_spec L R);
    simpl; done || lia.
Qed.

(** *** Joins of stretches of the array *)

Lemma op_none_None_r (x : option T) : op_none f x None = x.
Proof. by destruct x. Qed.

Lemma op_none_None_l (x : option T) : op_none f None x = x.
Proof. by destruct x. Qed.

Lemma take_plus {A} (u v : nat) (xs : list A) :
  take (u + v) xs = take u xs ++ take v (drop u xs).
Proof.
  revert xs. induction u as [|u IH]; intros [|x xs]; simpl; try done.
  - by rewrite take_nil.
  - by rewrite IH.
Qed.

Lemma sub_split {A} (p m q : nat) (xs : list A) :
  (p ≤ m ≤ q)%nat → sub p q xs = sub p m xs ++ sub m q xs.
Proof.
  intros Hpmq. unfold sub.
  replace (q - p)%nat with ((m - p) + (q - m))%nat by lia.
  rewrite take_plus, drop_drop. do 3 f_equal. lia.
Qed.

(** Bounds past the end of the array are as good as its length. *)
Lemma sub_clip {A} (p q : nat) (xs : list A) :
  (p `min` length xs < q `min` length xs)%nat →
  sub (p `min` length xs) (q `min` length xs) xs = sub p q xs.
Proof.
  intros Hpq. unfold sub. rewrite (Nat.min_l p) by lia.
  destruct (decide (q ≤ length xs)%nat).
  - by rewrite (Nat.min_l q) by lia.
  - rewrite (Nat.min_r q) by lia.
    rewrite !take_ge; [done|rewrite length_drop; lia..].
Qed.

Lemma sub_singleton {A} (p : nat) (xs : list A) :
  sub p (p + 1) xs = option_list (xs !! p).
Proof.
  unfold sub. replace (p + 1 - p)%nat with 1%nat by lia.
  replace (xs !! p) with (drop p xs !! 0%nat)
    by (rewrite lookup_drop; f_equal; lia).
  by destruct (drop p xs).
Qed.

Section assoc.
Hypothesis f_assoc : ∀ x y z, f x (f y z) = f (f x y) z.

Lemma op_none_assoc (x y z : option T) :
  op_none f x (op_none f y z) = op_none f (op_none f x y) z.
Proof. destruct x, y, z; simpl; by rewrite ?f_assoc. Qed.

Lemma agg_app (xs ys : list (option T)) :
  agg f (xs ++ ys) = op_none f (agg f xs) (agg f ys).
Proof.
  induction xs as [|x xs IH].
  - symmetry. apply op_none_None_l.
  - change (agg f ((x :: xs) ++ ys))
      with (op_none f x (agg f (xs ++ ys))).
    change (agg f (x :: xs)) with (op_none f x (agg f xs)).
    by rewrite IH, op_none_assoc.
Qed.

Lemma foldl_assoc (x y : T) (zs : list T) :
  f x (foldl f y zs) = foldl f (f x y) zs.
Proof.
  revert y. induction zs as [|z zs IH]; intros y; simpl; [done|].
  by rewrite IH, f_assoc.
Qed.

(** On real items the join of a stretch is the left fold. *)
Lemma agg_reduce (xs : list T) :
  agg f (Some <$> xs) = reduce f xs.
Proof.
  induction xs as [|x xs IH]; [done|].
  rewrite fmap_cons.
  change (agg f (Some x :: (Some <$> xs)))
    with (op_none f (Some x) (agg f (Some <$> xs))).
  rewrite IH. destruct xs as [|y ys]; simpl; [done|].
  by rewrite foldl_assoc.
Qed.
End assoc.

(** *** The meaning of the nodes *)


Lemma node_at_children (K h i lo : nat) :
  node_at K (S h) i lo →
  (i < K - 1)%nat ∧ node_at K h (2 * i + 1) lo ∧
  node_at K h (2 * i + 2) (lo + 2 ^ h).
Proof.
  unfold node_at. rewrite Nat.pow_succ_r'.
  pose proof (Nat.pow_nonzero 2 h ltac:(lia)) as Hw.
  generalize dependent (2 ^ h)%nat. intros w Hw [H1 H2]. nia.
Qed.

Lemma span_meaning a (K : nat) self (h : nat) : ∀ i lo,
  shaped f a K self → node_at K h i lo →
  span self !! i =
    Some (Z.of_nat (lo `min` length a), Z.of_nat ((lo + 2 ^ h) `min` length a)).
Proof.
  induction h as [|h IH]; intros i lo Hsh Hat.
  - destruct Hat as [H1 H2]. simpl in *.
    destruct (sh_leaf _ _ _ _ Hsh lo ltac:(lia)) as [_ Hsp].
    replace i with (K - 1 + lo)%nat by lia. rewrite Hsp.
    by replace (S lo) with (lo + 1)%nat by lia.
  - destruct (node_at_children _ _ _ _ Hat) as (Hi & Hl & Hr).
    destruct (sh_span _ _ _ _ Hsh i Hi) as (lc & rc & Hlc & Hrc & ->).
    rewrite (IH _ _ Hsh Hl) in Hlc. rewrite (IH _ _ Hsh Hr) in Hrc.
    injection Hlc as <-. injection Hrc as <-. cbn [fst snd].
    rewrite Nat.pow_succ_r'. do 3 f_equal. lia.
Qed.

Lemma seg_meaning a (K : nat) self (h : nat) : ∀ i lo,
  (∀ x y z, f x (f y z) = f (f x y) z) →
  shaped f a K self → node_at K h i lo →
  seg self !! i = Some (agg f (sub lo (lo + 2 ^ h) a)).
Proof.
  induction h as [|h IH]; intros i lo Hf Hsh Hat.
  - destruct Hat as [H1 H2]. simpl in *.
    destruct (sh_leaf _ _ _ _ Hsh lo ltac:(lia)) as [Hsg _].
    replace i with (K - 1 + lo)%nat by lia. rewrite Hsg.
    rewrite sub_singleton. destruct (a !! lo) as [x|]; simpl; [|done].
    by rewrite op_none_None_r.
  - destruct (node_at_children _ _ _ _ Hat) as (Hi & Hl & Hr).
    destruct (sh_seg _ _ _ _ Hsh i Hi) as (x & y & Hx & Hy & ->).
    rewrite (IH _ _ Hf Hsh Hl) in Hx. rewrite (IH _ _ Hf Hsh Hr) in Hy.
    injection Hx as <-. injection Hy as <-.
    rewrite (fr_op _ _ _ _ (sh_frame _ _ _ _ Hsh)).
    rewrite <- agg_app by done. rewrite <- sub_split by lia.
    rewrite Nat.pow_succ_r'. do 3 f_equal. lia.
Qed.

Lemma node_at_lt (K h i lo : nat) :
  node_at K h i lo → (i < 2 * K - 1)%nat.
Proof.
  unfold node_at. pose proof (Nat.pow_nonzero 2 h ltac:(lia)) as Hw.
  generalize dependent (2 ^ h)%nat. intros w Hw [H1 H2]. nia.
Qed.

(** The cell of a node whose span is exactly the non-empty [[L, R)]. *)
Lemma exact_node a (K : nat) self (h i lo : nat) (L R : Z) :
  shaped f a K self → node_at K h i lo →
  L = Z.of_nat (lo `min` length a) →
  R = Z.of_nat ((lo + 2 ^ h) `min` length a) → L < R →
  ∃ v, getitem (seg self) (Z.of_nat i) = Ok v ∧
       ((∀ x y z, f x (f y z) = f (f x y) z) →
        v = agg f (sub (Z.to_nat L) (Z.to_nat R) a)).
Proof.
  intros Hsh Hat -> -> HLR. pose proof (node_at_lt _ _ _ _ Hat) as Hi.
  rewrite <- (fr_seg _ _ _ _ (sh_frame _ _ _ _ Hsh)) in Hi.
  destruct (lookup_lt_is_Some_2 _ _ Hi) as [x Hx].
  rewrite (getitem_at _ _ i x eq_refl Hx). exists x. split; [done|].
  intros Hf. rewrite (seg_meaning a K self _ i lo Hf Hsh Hat) in Hx.
  injection Hx as <-. rewrite !Nat2Z.id. by rewrite sub_clip by lia.
Qed.

(** [_help_me_query] at a node whose span contains the non-empty
    [[L, R)] returns; when the join operator is associative it returns
    the join of [a[L]], ..., [a[R-1]]. *)
Lemma help_me_query_spec a (K : nat) self (h : nat) : ∀ i lo (L R : Z),
  shaped f a K self → node_at K h i lo →
  Z.of_nat (lo `min` length a) <= L → L < R →
  R <= Z.of_nat ((lo + 2 ^ h) `min` length a) →
  ∃ v, _help_me_query self L R i = Ok v ∧
       ((∀ x y z, f x (f y z) = f (f x y) z) →
        v = agg f (sub (Z.to_nat L) (Z.to_nat R) a)).
Proof.
  induction h as [|h IH]; intros i lo L R Hsh Hat HL HLR HR;
    rewrite help_me_query_unfold;
    rewrite (getitem_at _ _ i _ eq_refl (span_meaning a K self _ i lo Hsh Hat));
    cbn [rbind fst snd].
  - (* a leaf: its span is [L, R) itself *)
    assert (L = Z.of_nat (lo `min` length a)) as EL by (simpl in HR; lia).
    assert (R = Z.of_nat ((lo + 2 ^ 0) `min` length a)) as ER
      by (simpl in *; lia).
    rewrite <- EL, <- ER, !Z.eqb_refl. cbn [andb].
    by apply (exact_node a K self 0 i lo).
  - destruct (Z.eqb_spec L (Z.of_nat (lo `min` length a))) as [EL|NL];
      [destruct (Z.eqb_spec R (Z.of_nat ((lo + 2 ^ S h) `min` length a)))
         as [ER|NR]|]; cbn [andb].
    { by apply (exact_node a K self (S h) i lo). }
    all: destruct (node_at_children _ _ _ _ Hat) as (Hi & Hl & Hr).
    all: rewrite (getitem_at _ _ _ _ eq_refl (span_meaning a K self _ _ _ Hsh Hl)).
    all: rewrite (getitem_at _ _ _ _ eq_refl (span_meaning a K self _ _ _ Hsh Hr)).
    all: cbn [rbind fst snd]; rewrite Nat.pow_succ_r' in HR.
    all: assert (lo + 2 ^ h + 2 ^ h = lo + 2 * 2 ^ h)%nat as E2 by lia.
    all: set (m := Z.of_nat ((lo + 2 ^ h) `min` length a)) in *.
    all: destruct (Z.leb_spec R m) as [HRm|HRm];
      [apply (IH _ lo); done || lia|].
    all: destruct (Z.geb_spec L m) as [HLm|HLm];
      [apply (IH _ (lo + 2 ^ h)%nat); try done; rewrite ?E2; lia|].
    all: destruct (IH _ lo L m Hsh Hl) as (vL & -> & HvL); [lia..|].
    all: destruct (IH _ (lo + 2 ^ h)%nat m R Hsh Hr) as (vR & -> & HvR);
      [lia|lia|rewrite ?E2; lia|].
    all: cbn [rbind]; eexists; (split; [done|]); intros Hf.
    all: rewrite (HvL Hf), (HvR Hf), (fr_op _ _ _ _ (sh_frame _ _ _ _ Hsh)).
    all: rewrite <- agg_app by done; rewrite <- sub_split by lia; done.
Qed.

(** [query] in range returns; when the join operator is associative it
    returns the join of [a[L]], ..., [a[R-1]]. *)
Lemma query_shaped a (e : nat) self (L R : Z) :
  shaped f a (2 ^ e) self → 0 <= L < R ∧ R <= len a →
  ∃ v, query L R self = (Ok v, self) ∧
       ((∀ x y z, f x (f y z) = f (f x y) z) →
        v = agg f (sub (Z.to_nat L) (Z.to_nat R) a)).
Proof.
  intros Hsh HLR. pose proof (sh_frame _ _ _ _ Hsh) as [Hop Hn Hl HK Ha Hseg Hspan].
  unfold query, bind, read, lift. rewrite Hn.
  destruct (Z.ltb_spec L 0); [lia|]. destruct (Z.gtb_spec R (len a)); [lia|].
  destruct (Z.geb_spec L R); [lia|]. cbn [orb].
  destruct (help_me_query_spec a (2 ^ e) self e 0 0 L R) as (v & Hv & Hagg);
    [done|split; lia|unfold len in *; lia..|].
  exists v. by rewrite Hv.
Qed.

End SegtreeQuery.
End SegtreeQuery.

(** ** The segment tree: the trees a caller can obtain *)

Module SegtreeSpec.
Import Segtree SegtreeSize SegtreeBuild SegtreeUpdate SegtreeQuery.
Section SegtreeSpec.
Context {T : Type} (f : T → T → T).
Implicit Types self : Segtree.t T.
Implicit Types a : list (option T).

Lemma init_tree a : ∃ self, init a f = Ok self ∧ tree_of f a self.
Proof.
  destruct (init_shaped f a) as (self & E & Hsh). exists self. split; [done|].
  exists (Z.to_nat (_ceil_log_2 (len a))).
  pose proof (ceil_log_2_nonneg (len a)).
  rewrite Znat.Z2Nat.inj_pow in Hsh by lia. done.
Qed.

Lemma query_state self (L R : Z) : (query L R self).2 = self.
Proof.
  unfold query, bind, read, raise, lift. by destruct (_ || _).
Qed.

Lemma get_state self (ind : Z) : (get ind self).2 = self.
Proof.
  unfold get, bind, read, raise, lift. by destruct (_ || _).
Qed.

Lemma tree_n a self : tree_of f a self → n self = len a.
Proof. intros [e Hsh]. apply (fr_n _ _ _ _ (sh_frame _ _ _ _ Hsh)). Qed.

Lemma update_tree a self (ind : Z) val :
  tree_of f a self → - n self <= ind < n self →
  ∃ self', update ind val self = (Ok tt, self') ∧
           tree_of f (<[Z.to_nat (shift (n self) ind):=val]> a) self'.
Proof.
  intros Htr Hind. rewrite (tree_n a self Htr) in *. destruct Htr as [e Hsh].
  destruct (update_shaped f a _ self ind val Hsh Hind) as (self' & E & Hsh').
  exists self'. split; [done|]. by exists e.
Qed.

(** Every tree a caller can obtain is well formed, over some array. *)
Lemma reachable_tree self : reachable f self → ∃ a, tree_of f a self.
Proof.
  induction 1 as [a self E|c self _ [a Htr]].
  - destruct (init_tree a) as (self' & E' & Htr). exists a. congruence.
  - destruct c as [L R|ind val|ind|]; simpl.
    + rewrite query_state. by exists a.
    + destruct (decide (- n self <= ind < n self)) as [Hin|Hout].
      * destruct (update_tree a self ind val Htr Hin) as (self' & -> & Htr').
        by eexists.
      * rewrite update_raises by done. by exists a.
    + rewrite get_state. by exists a.
    + by exists a.
Qed.

Lemma get_each_tree a self (c : nat) : ∀ s : nat,
  tree_of f a self → (s + c ≤ length a)%nat →
  get_each (Z.of_nat <$> seq s c) self = (Ok (take c (drop s a)), self).
Proof.
  induction c as [|c IH]; intros s Htr Hsc; [done|].
  change (seq s (S c)) with (s :: seq (S s) c). rewrite fmap_cons.
  cbn [get_each]. destruct Htr as [e Hsh].
  destruct (get_shaped f a _ self (Z.of_nat s) Hsh) as (x & Hx & E).
  { unfold len. lia. }
  unfold shift in Hx. destruct (Z.ltb_spec (Z.of_nat s) 0); [lia|].
  rewrite Nat2Z.id in Hx.
  rewrite (bind_ok _ _ _ _ _ E).
  rewrite (bind_ok _ _ _ _ _ (IH (S s) (ex_intro _ e Hsh) ltac:(lia))).
  unfold ret. by rewrite (drop_S _ _ _ Hx).
Qed.

(** On an array of real items, the join of a stretch inside the array
    is the left fold over the corresponding slice. *)
Lemma agg_slice (xs : list T) (L R : Z) :
  (∀ x y z, f x (f y z) = f (f x y) z) →
  0 <= L < R ∧ R <= len xs →
  agg f (sub (Z.to_nat L) (Z.to_nat R) (Some <$> xs)) = reduce f (slice xs L R) ∧
  is_Some (reduce f (slice xs L R)).
Proof.
  intros Hf HLR. unfold len in HLR.
  rewrite (slice_at xs L R (Z.to_nat L) (Z.to_nat R)) by lia.
  unfold sub. rewrite <- fmap_drop, <- fmap_take, agg_reduce by done.
  split; [done|].
  destruct (take _ _) as [|x r] eqn:E; [|by eexists].
  apply (f_equal length) in E. rewrite length_take, length_drop in E.
  simpl in E. lia.
Qed.

(** C1. On the tree built from an array [a] of [n >= 1] real items with
    an associative join, [query(L, R)] with [0 <= L < R <= n] returns
    the left fold of the join over [a[L]], [a[L+1]], ..., [a[R-1]]. *)
Theorem query_is_left_fold (xs : list T) (L R : Z) :
  (∀ x y z, f x (f y z) = f (f x y) z) →
  1 <= len xs → 0 <= L < R ∧ R <= len xs →
  ∃ self, init (Some <$> xs) f = Ok self ∧
          query L R self = (Ok (reduce f (slice xs L R)), self) ∧
          is_Some (reduce f (slice xs L R)).
Proof.
  intros Hf Hn HLR.
  destruct (init_tree (Some <$> xs)) as (self & E & [e Hsh]).
  exists self. split; [done|].
  destruct (query_shaped f _ e self L R Hsh) as (v & Ev & Hv).
  { unfold len in *. by rewrite length_fmap. }
  destruct (agg_slice xs L R Hf HLR) as [Eagg Hsome].
  by rewrite Ev, (Hv Hf), Eagg.
Qed.

(** C2. On a tree over [n >= 1] real items [xs], after [update(ind, v)]
    with an index in range and a real [v]: [get(ind)] returns [v]; every
    [query(L, R)] with [0 <= L < R <= n] returns the left fold of the
    join over the array with the item at the shifted index replaced by
    [v]; and [arr()] returns that array, which is also the list
    [get(0), get(1), ..., get(n-1)]. *)
Theorem update_then_observe self (xs : list T) (ind : Z) (v : T) :
  (∀ x y z, f x (f y z) = f (f x y) z) →
  reachable f self → 1 <= n self →
  arr self = (Ok (Some <$> xs), self) →
  - n self <= ind < n self →
  ∃ self',
    update ind (Some v) self = (Ok tt, self') ∧
    n self' = n self ∧
    get ind self' = (Ok (Some v), self') ∧
    (∀ L R, 0 <= L < R ∧ R <= n self' →
       query L R self' =
         (Ok (reduce f (slice (<[Z.to_nat (shift (n self) ind):=v]> xs) L R)),
          self') ∧
       is_Some (reduce f (slice (<[Z.to_nat (shift (n self) ind):=v]> xs) L R))) ∧
    arr self' = (Ok (Some <$> <[Z.to_nat (shift (n self) ind):=v]> xs), self') ∧
    arr self' = get_each (range (n self')) self'.
Proof.
  intros Hf Hr Hn Harr Hind. destruct (reachable_tree self Hr) as [a Htr].
  pose proof Htr as [e0 Hsh0].
  rewrite (arr_shaped f a _ self Hsh0) in Harr. injection Harr as ->.
  destruct (update_tree _ self ind (Some v) Htr Hind) as (self' & E & Htr').
  rewrite <- list_fmap_insert in Htr'.
  set (xs' := <[Z.to_nat (shift (n self) ind):=v]> xs) in *.
  pose proof (tree_n _ _ Htr) as Hn0. pose proof (tree_n _ _ Htr') as Hn1.
  assert (len (Some <$> xs') = len xs') as Hlen'
    by (unfold len; by rewrite length_fmap).
  assert (len xs' = n self) as Hlen.
  { rewrite Hn0. unfold xs', len. by rewrite length_insert, length_fmap. }
  pose proof Htr' as [e Hsh].
  exists self'. split; [done|]. split; [lia|]. split; [|split; [|split]].
  - destruct (get_shaped f _ _ self' ind Hsh) as (x & Hx & Ex); [lia|].
    rewrite Ex. do 2 f_equal. rewrite Hlen', Hlen in Hx.
    rewrite list_lookup_fmap in Hx. unfold xs' in Hx.
    pose proof (shift_range _ _ Hind). unfold len in Hn0.
    rewrite length_fmap in Hn0.
    rewrite list_lookup_insert_eq in Hx by lia. by injection Hx as <-.
  - intros L R HLR.
    destruct (query_shaped f _ e self' L R Hsh) as (x & Ex & Hx); [lia|].
    destruct (agg_slice xs' L R Hf) as [Eagg Hsome]; [lia|].
    by rewrite Ex, (Hx Hf), Eagg.
  - apply (arr_shaped f _ _ _ Hsh).
  - rewrite (arr_shaped f _ _ _ Hsh). unfold range.
    rewrite (get_each_tree _ self' _ 0 Htr').
    + rewrite drop_0, take_ge; [done|]. unfold len in *. lia.
    + unfold len in *. lia.
Qed.

(** C3. On a tree a caller can obtain: [query(L, R)] raises an
    [IndexError] exactly when [L < 0] or [R > n] or [L >= R]; [update]
    and [get] raise one exactly when the shifted index is outside
    [[0, n)]; and a call that raises leaves the object (hence [seg],
    [span] and [n]) as it was. *)
Theorem raises_iff_out_of_range self (L R ind : Z) (val : option T) :
  reachable f self →
  ((∃ msg, (query L R self).1 = Raise (IndexError msg)) ↔
     L < 0 ∨ R > n self ∨ L >= R) ∧
  ((∃ msg, (update ind val self).1 = Raise (IndexError msg)) ↔
     ¬ (0 <= shift (n self) ind < n self)) ∧
  ((∃ msg, (get ind self).1 = Raise (IndexError msg)) ↔
     ¬ (0 <= shift (n self) ind < n self)) ∧
  (∀ e, (query L R self).1 = Raise e → (query L R self).2 = self) ∧
  (∀ e, (update ind val self).1 = Raise e → (update ind val self).2 = self) ∧
  (∀ e, (get ind self).1 = Raise e → (get ind self).2 = self).
Proof.
  intros Hr. destruct (reachable_tree self Hr) as [a Htr].
  pose proof (tree_n _ _ Htr) as Hn. pose proof Htr as [e Hsh].
  assert (0 <= shift (n self) ind < n self ↔ - n self <= ind < n self) as Hsh_iff.
  { unfold shift. pose proof (len_nonneg a).
    destruct (Z.ltb_spec ind 0); lia. }
  split; [|split; [|split; [|split; [|split]]]].
  - split.
    + intros [msg Hq]. destruct (decide (L < 0 ∨ R > n self ∨ L >= R)); [done|].
      destruct (query_shaped f a e self L R Hsh) as (v & Ev & _); [lia|].
      by rewrite Ev in Hq.
    + intros H. rewrite query_raises by done. by eexists.
  - rewrite Hsh_iff. split.
    + intros [msg Hu] Hin.
      destruct (update_tree a self ind val Htr Hin) as (self' & E & _).
      by rewrite E in Hu.
    + intros H. rewrite update_raises by done. by eexists.
  - rewrite Hsh_iff. split.
    + intros [msg Hg] Hin. rewrite Hn in Hin.
      destruct (get_shaped f a _ self ind Hsh Hin) as (x & _ & E).
      by rewrite E in Hg.
    + intros H. rewrite get_raises by done. by eexists.
  - intros _ _. apply query_state.
  - intros e' Hu. destruct (decide (- n self <= ind < n self)) as [Hin|Hout].
    + destruct (update_tree a self ind val Htr Hin) as (self' & E & _).
      by rewrite E in Hu.
    + by rewrite update_raises.
  - intros _ _. apply get_state.
Qed.

(** C5. On a tree a caller can obtain (after construction, after every
    update): every internal node [i] holds the [None]-tolerant join of
    its children in [seg] and the interval from the left end of its
    left child to the right end of its right child in [span]; and the
    leaf of the item at index [idx] has the span [[idx, idx+1]]. *)
Theorem tree_invariants self :
  reachable f self →
  (∀ i, 0 <= i < l self `div` 2 →
     (∃ x y, getitem (seg self) (2 * i + 1) = Ok x ∧
             getitem (seg self) (2 * i + 2) = Ok y ∧
             getitem (seg self) i = Ok (op self x y)) ∧
     (∃ lc rc, getitem (span self) (2 * i + 1) = Ok lc ∧
               getitem (span self) (2 * i + 2) = Ok rc ∧
               getitem (span self) i = Ok (lc.1, rc.2))) ∧
  (∀ idx, 0 <= idx < n self →
     getitem (span self) (l self `div` 2 + idx) = Ok (idx, idx + 1)) ∧
  (∀ x y, op self x y = op_none f x y).
Proof.
  intros Hr. destruct (reachable_tree self Hr) as [a [e Hsh]].
  pose proof (sh_frame _ _ _ _ Hsh) as [Hop Hn Hl HK Ha Hseg Hspan].
  rewrite Hl, (half_nodes _ HK), Hn. split; [|split].
  - intros i Hi. assert (∃ j, i = Z.of_nat j) as [j ->]
      by (exists (Z.to_nat i); lia).
    destruct (sh_seg _ _ _ _ Hsh j ltac:(lia)) as (x & y & Hx & Hy & Hj).
    destruct (sh_span _ _ _ _ Hsh j ltac:(lia)) as (lc & rc & Hlc & Hrc & Hsj).
    split.
    + exists x, y.
      rewrite (getitem_at _ _ (2 * j + 1) x), (getitem_at _ _ (2 * j + 2) y),
        (getitem_at _ _ j (op self x y)); done || lia.
    + exists lc, rc.
      rewrite (getitem_at _ _ (2 * j + 1) lc), (getitem_at _ _ (2 * j + 2) rc),
        (getitem_at _ _ j (lc.1, rc.2)); done || lia.
  - intros idx Hidx. assert (∃ j, idx = Z.of_nat j) as [j ->]
      by (exists (Z.to_nat idx); lia).
    unfold len in Hidx.
    destruct (sh_leaf _ _ _ _ Hsh j ltac:(lia)) as [_ Hsp].
    rewrite (getitem_at _ (Z.of_nat (2 ^ e - 1) + Z.of_nat j)
               (2 ^ e - 1 + j) _ ltac:(lia) Hsp).
    do 2 f_equal; lia.
  - intros x y. by rewrite Hop.
Qed.

(** C6. For [-n <= ind < 0], [update(ind, v)] leaves the same object and
    [get(ind)] returns the same value as with [ind + n]; so [-1] stands
    for [n - 1]. *)
Theorem negative_index_wraps self (ind : Z) (val : option T) :
  1 <= n self → - n self <= ind < 0 →
  update ind val self = update (ind + n self) val self ∧
  get ind self = get (ind + n self) self.
Proof.
  intros Hn Hind. unfold update, get, bind, read, shift.
  destruct (Z.geb_spec ind (n self)); [lia|].
  destruct (Z.ltb_spec ind (- n self)); [lia|].
  destruct (Z.geb_spec (ind + n self) (n self)); [lia|].
  destruct (Z.ltb_spec (ind + n self) (- n self)); [lia|].
  destruct (Z.ltb_spec ind 0); [|lia].
  destruct (Z.ltb_spec (ind + n self) 0); [lia|]. done.
Qed.

(** C7. For an array of [n >= 1] items, [k = 2 ** _ceil_log_2(n)] is
    the least power of two that is at least [n], [_ceil_log_2(n)] being
    the least exponent [c] with [n <= 2^c]; and [__init__] allocates
    [seg] and [span] of length [2*k - 1]. *)
Theorem padded_size a :
  1 <= len a →
  0 <= _ceil_log_2 (len a) ∧
  len a <= 2 ^ _ceil_log_2 (len a) ∧
  (∀ j, 0 <= j → len a <= 2 ^ j →
     _ceil_log_2 (len a) <= j ∧ 2 ^ _ceil_log_2 (len a) <= 2 ^ j) ∧
  ∃ self, init a f = Ok self ∧
          len (seg self) = 2 * 2 ^ _ceil_log_2 (len a) - 1 ∧
          len (span self) = 2 * 2 ^ _ceil_log_2 (len a) - 1 ∧
          l self = 2 * 2 ^ _ceil_log_2 (len a) - 1.
Proof.
  intros Hn. destruct (ceil_log_2_spec (len a) Hn) as (Hc & Hle & Hleast).
  split; [done|]. split; [done|]. split.
  - intros j Hj Hnj. split; [by apply Hleast|].
    apply Z.pow_le_mono_r; [lia|]. by apply Hleast.
  - destruct (init_shaped f a) as (self & E & Hsh). exists self.
    pose proof (sh_frame _ _ _ _ Hsh) as [Hop Hn' Hl HK Ha Hseg Hspan].
    split; [done|]. unfold len in *. rewrite Hseg, Hspan, Hl.
    assert (0 < 2 ^ _ceil_log_2 (Z.of_nat (length a)))
      by (apply Z.pow_pos_nonneg; lia). lia.
Qed.

(** C10. [__init__] on the empty array returns a tree of one node, the
    cell [None] with the span [[0, 0]]; on it every [query], [update]
    and [get] raises an [IndexError] and leaves the object as it was,
    and [arr()] returns the empty list. *)
Theorem empty_tree :
  ∃ self, init [] f = Ok self ∧
          n self = 0 ∧ l self = 1 ∧ seg self = [None] ∧ span self = [(0, 0)] ∧
          (∀ L R, query L R self =
                    (Raise (IndexError (query_msg L R 0)), self)) ∧
          (∀ ind val, update ind val self =
                        (Raise (IndexError (index_msg ind)), self)) ∧
          (∀ ind, get ind self =
                    (Raise (IndexError (index_msg ind)), self)) ∧
          arr self = (Ok [], self) ∧
          (∀ c, after c self = self).
Proof.
  eexists. split; [reflexivity|]. cbn [n l seg span].
  assert (∀ L R, L < 0 ∨ R > 0 ∨ L >= R) as HLR by lia.
  assert (∀ ind, ¬ (- 0 <= ind < 0)) as Hind by lia.
  repeat split.
  - intros L R. by rewrite query_raises by apply HLR.
  - intros ind val. by rewrite update_raises by apply Hind.
  - intros ind. by rewrite get_raises by apply Hind.
  - intros [L R|ind val|ind|]; simpl.
    + apply query_state.
    + by rewrite update_raises by apply Hind.
    + apply get_state.
    + done.
Qed.

End SegtreeSpec.
End SegtreeSpec.

(** ** The segment tree: the messages of the [IndexError]s *)

Module SegtreeErrors.
Import Segtree SegtreeSize SegtreeBuild SegtreeUpdate SegtreeQuery SegtreeSpec.


Lemma pretty_N_go_lacks (c : ascii) (x : N) : ∀ s,
  not_digit c → lacks c s → lacks c (pretty_N_go x s).
Proof.
  induction (N.lt_wf_0 x) as [x _ IH]. intros s Hc Hs.
  assert (x = 0 ∨ 0 < x)%N as [->|Hx] by lia.
  - by rewrite pretty_N_go_0.
  - rewrite pretty_N_go_step by done. apply IH; [by apply N.div_lt|done|].
    split; [apply Hc|done].
Qed.

(** [str(i)] is made of digits and, possibly, a minus sign. *)
Lemma str_lacks (c : ascii) (z : Z) :
  not_digit c → c ≠ "-"%char → lacks c (str z).
Proof.
  intros Hc Hm. unfold str, pretty, pretty_Z, pretty, pretty_positive,
    pretty, pretty_N.
  assert (lacks c "0") as H0.
  { split; [|done]. apply (Hc 0%N). }
  destruct z as [|p|p]; [done|..]; simpl.
  - by apply pretty_N_go_lacks.
  - split; [done|]. by apply pretty_N_go_lacks.
Qed.

Lemma append_inj_l (s t1 t2 : string) : s +:+ t1 = s +:+ t2 → t1 = t2.
Proof. induction s as [|c s IH]; simpl; [done|]. intros [= H]. auto. Qed.

(** Two texts that agree up to and after their first [c]. *)
Lemma split_at (c : ascii) (s1 s2 t1 t2 : string) :
  lacks c s1 → lacks c s2 →
  s1 +:+ String c t1 = s2 +:+ String c t2 → s1 = s2 ∧ t1 = t2.
Proof.
  revert s2. induction s1 as [|c1 s1 IH]; intros [|c2 s2]; simpl.
  - by intros _ _ [= ->].
  - intros _ [Hc2 _] [= E _]. by destruct Hc2.
  - intros [Hc1 _] _ [= E _]. by destruct Hc1.
  - intros [_ H1] [_ H2] [= -> E]. destruct (IH s2 H1 H2 E) as [-> ->]. done.
Qed.

Lemma comma_not_digit : not_digit ","%char.
Proof. intros d. unfold pretty_N_char. by repeat case_match. Qed.

Lemma bracket_not_digit : not_digit "]"%char.
Proof. intros d. unfold pretty_N_char. by repeat case_match. Qed.

Lemma space_not_digit : not_digit " "%char.
Proof. intros d. unfold pretty_N_char. by repeat case_match. Qed.

(** The message of [query] tells [L], [R] and [n]. *)
Lemma query_msg_inj (L R m L' R' m' : Z) :
  query_msg L R m = query_msg L' R' m' → L = L' ∧ R = R' ∧ m = m'.
Proof.
  unfold query_msg. intros H. apply append_inj_l in H.
  apply (split_at ","%char) in H as [HL H];
    [|by apply str_lacks; [apply comma_not_digit|]..].
  apply (split_at "]"%char _ _ (" but segtree only has " +:+ _)
                  (" but segtree only has " +:+ _)) in H as [HR H];
    [|by apply str_lacks; [apply bracket_not_digit|]..].
  apply append_inj_l in H.
  apply (split_at " "%char _ _ "elements" "elements") in H as [Hm _];
    [|by apply str_lacks; [apply space_not_digit|]..].
  unfold str in *. by repeat split; apply (inj pretty).
Qed.

(** The message of [update] and [get] tells the index. *)
Lemma index_msg_inj (ind ind' : Z) :
  index_msg ind = index_msg ind' → ind = ind'.
Proof.
  unfold index_msg. intros H%append_inj_l. by apply (inj pretty).
Qed.


Lemma demo_init : init (Some <$> [2; 4; 6; 8]) Z.add = Ok demo.
Proof. vm_compute. reflexivity. Defined.

Lemma demo_reachable : reachable Z.add demo.
Proof. exact (reach_init Z.add _ _ demo_init). Defined.

(** C9, as stated, fails: [get(5)] raises the very same [IndexError] on
    a tree of one item and on a tree of two, so the message of [get]
    does not carry [n]. *)
Lemma get_message_omits_size : ¬ messages_tell_size.
Proof.
  intros [size_of H].
  destruct (init_tree Z.add [Some 1]) as (s1 & E1 & Htr1).
  destruct (init_tree Z.add [Some 1; Some 2]) as (s2 & E2 & Htr2).
  pose proof (tree_n _ _ _ Htr1) as Hn1. pose proof (tree_n _ _ _ Htr2) as Hn2.
  pose proof (H s1 (Get 5) (index_msg 5) (reach_init _ _ _ E1)) as H1.
  pose proof (H s2 (Get 5) (index_msg 5) (reach_init _ _ _ E2)) as H2.
  simpl in H1, H2. rewrite get_raises in H1 by (rewrite Hn1; vm_compute; intuition discriminate).
  rewrite get_raises in H2 by (rewrite Hn2; vm_compute; intuition discriminate).
  specialize (H1 eq_refl). specialize (H2 eq_refl).
  rewrite Hn1 in H1. rewrite Hn2 in H2. rewrite H1 in H2. discriminate.
Qed.

(** C9, amended. On a tree a caller can obtain, whatever [query],
    [update] or [get] raises is an [IndexError]. The message of
    [query]'s is the text built from [L], [R] and [n], and tells all
    three; the message of [update]'s and of [get]'s is the text built
    from the index, and tells the index. [arr] does not raise. *)
Theorem error_messages {T} (f : T → T → T) (self : Segtree.t T)
    (c : call T) (e : exn) :
  reachable f self → raised c self = Some e →
  ∃ msg, e = IndexError msg ∧
    match c with
    | Query L R =>
        msg = query_msg L R (n self) ∧
        ∀ L' R' m', msg = query_msg L' R' m' → L' = L ∧ R' = R ∧ m' = n self
    | Update ind _ | Get ind =>
        msg = index_msg ind ∧
        ∀ ind', msg = index_msg ind' → ind' = ind
    | Arr => False
    end.
Proof.
  intros Hr He. destruct e as [msg]. exists msg. split; [done|].
  destruct (reachable_tree f self Hr) as [a Htr].
  pose proof (tree_n _ _ _ Htr) as Hn. pose proof Htr as [k Hsh].
  destruct c as [L R|ind val|ind|]; simpl in He.
  - destruct (decide (L < 0 ∨ R > n self ∨ L >= R)) as [Hout|Hin].
    + rewrite query_raises in He by done. injection He as <-.
      split; [done|]. intros L' R' m' E.
      apply query_msg_inj in E as (-> & -> & ->). done.
    + destruct (query_shaped f a k self L R Hsh) as (v & Ev & _); [lia|].
      by rewrite Ev in He.
  - destruct (decide (- n self <= ind < n self)) as [Hin|Hout].
    + destruct (update_tree f a self ind val Htr Hin) as (self' & E & _).
      by rewrite E in He.
    + rewrite update_raises in He by done. injection He as <-.
      split; [done|]. by intros ind' ->%index_msg_inj.
  - destruct (decide (- n self <= ind < n self)) as [Hin|Hout].
    + rewrite Hn in Hin.
      destruct (get_shaped f a _ self ind Hsh Hin) as (x & _ & E).
      by rewrite E in He.
    + rewrite get_raises in He by done. injection He as <-.
      split; [done|]. by intros ind' ->%index_msg_inj.
  - done.
Qed.

End SegtreeErrors.

(** ** The properties at concrete inputs *)

Module Examples.
Import Queue QueueSpec Segtree SegtreeSpec SegtreeErrors.

(** C8 on a new queue: its count is 0, and it is reachable. *)
Lemma queue_never_raises_witness :
  deq (@Queue.init Z) = (Ok None, Queue.init) ∧
  is_ok (deq (@Queue.init Z)).1 = true.
Proof.
  destruct (queue_never_raises (@Queue.init Z)) as [H0 Hr]. split.
  - apply H0. reflexivity.
  - apply Hr. apply Queue.reach_init.
Defined.

(** C1 on [[2, 4, 6, 8]] with the sum, for [query(1, 3)]. *)
Lemma query_is_left_fold_witness :
  ∃ self, init (Some <$> [2; 4; 6; 8]) Z.add = Ok self ∧
          query 1 3 self = (Ok (reduce Z.add (slice [2; 4; 6; 8] 1 3)), self) ∧
          is_Some (reduce Z.add (slice [2; 4; 6; 8] 1 3)).
Proof.
  apply (query_is_left_fold Z.add [2; 4; 6; 8] 1 3).
  - intros x y z. lia.
  - vm_compute. discriminate.
  - vm_compute. intuition discriminate.
Defined.

(** C2 on the tree over [[2, 4, 6, 8]], for [update(-2, 100)]. *)
Lemma update_then_observe_witness :
  ∃ self',
    update (-2) (Some 100) demo = (Ok tt, self') ∧
    n self' = n demo ∧
    get (-2) self' = (Ok (Some 100), self') ∧
    (∀ L R, 0 <= L < R ∧ R <= n self' →
       query L R self' =
         (Ok (reduce Z.add
                (slice (<[Z.to_nat (shift (n demo) (-2)):=100]> [2; 4; 6; 8]) L R)),
          self') ∧
       is_Some (reduce Z.add
                  (slice (<[Z.to_nat (shift (n demo) (-2)):=100]> [2; 4; 6; 8]) L R))) ∧
    arr self' =
      (Ok (Some <$> <[Z.to_nat (shift (n demo) (-2)):=100]> [2; 4; 6; 8]), self') ∧
    arr self' = get_each (range (n self')) self'.
Proof.
  apply (update_then_observe Z.add demo [2; 4; 6; 8] (-2) 100).
  - intros x y z. lia.
  - exact demo_reachable.
  - vm_compute. discriminate.
  - reflexivity.
  - vm_compute. intuition discriminate.
Defined.

(** C3 on the tree over [[2, 4, 6, 8]], for [query(-1, 5)],
    [update(4, 1)] and [get(4)]. *)
Lemma raises_iff_out_of_range_witness :
  ((∃ msg, (query (-1) 5 demo).1 = Raise (IndexError msg)) ↔
     -1 < 0 ∨ 5 > n demo ∨ -1 >= 5) ∧
  ((∃ msg, (update 4 (Some 1) demo).1 = Raise (IndexError msg)) ↔
     ¬ (0 <= shift (n demo) 4 < n demo)) ∧
  ((∃ msg, (get 4 demo).1 = Raise (IndexError msg)) ↔
     ¬ (0 <= shift (n demo) 4 < n demo)) ∧
  (∀ e, (query (-1) 5 demo).1 = Raise e → (query (-1) 5 demo).2 = demo) ∧
  (∀ e, (update 4 (Some 1) demo).1 = Raise e →
        (update 4 (Some 1) demo).2 = demo) ∧
  (∀ e, (get 4 demo).1 = Raise e → (get 4 demo).2 = demo).
Proof.
  apply (raises_iff_out_of_range Z.add demo (-1) 5 4 (Some 1)).
  exact demo_reachable.
Defined.

(** C5 on the tree over [[2, 4, 6, 8]]. *)
Lemma tree_invariants_witness :
  (∀ i, 0 <= i < l demo `div` 2 →
     (∃ x y, getitem (seg demo) (2 * i + 1) = Ok x ∧
             getitem (seg demo) (2 * i + 2) = Ok y ∧
             getitem (seg demo) i = Ok (op demo x y)) ∧
     (∃ lc rc, getitem (span demo) (2 * i + 1) = Ok lc ∧
               getitem (span demo) (2 * i + 2) = Ok rc ∧
               getitem (span demo) i = Ok (lc.1, rc.2))) ∧
  (∀ idx, 0 <= idx < n demo →
     getitem (span demo) (l demo `div` 2 + idx) = Ok (idx, idx + 1)) ∧
  (∀ x y, op demo x y = op_none Z.add x y).
Proof.
  apply (tree_invariants Z.add demo). exact demo_reachable.
Defined.

(** C6 on the tree over [[2, 4, 6, 8]], for the index [-1]. *)
Lemma negative_index_wraps_witness :
  update (-1) (Some 7) demo = update (-1 + n demo) (Some 7) demo ∧
  get (-1) demo = get (-1 + n demo) demo.
Proof.
  apply (negative_index_wraps demo (-1) (Some 7)).
  - vm_compute. discriminate.
  - vm_compute. intuition discriminate.
Defined.

(** C7 on an array of five items. *)
Lemma padded_size_witness :
  0 <= _ceil_log_2 (len (Some <$> [2; 4; 6; 8; 1])) ∧
  len (Some <$> [2; 4; 6; 8; 1]) <= 2 ^ _ceil_log_2 (len (Some <$> [2; 4; 6; 8; 1])) ∧
  (∀ j, 0 <= j → len (Some <$> [2; 4; 6; 8; 1]) <= 2 ^ j →
     _ceil_log_2 (len (Some <$> [2; 4; 6; 8; 1])) <= j ∧
     2 ^ _ceil_log_2 (len (Some <$> [2; 4; 6; 8; 1])) <= 2 ^ j) ∧
  ∃ self, init (Some <$> [2; 4; 6; 8; 1]) Z.add = Ok self ∧
          len (seg self) = 2 * 2 ^ _ceil_log_2 (len (Some <$> [2; 4; 6; 8; 1])) - 1 ∧
          len (span self) = 2 * 2 ^ _ceil_log_2 (len (Some <$> [2; 4; 6; 8; 1])) - 1 ∧
          l self = 2 * 2 ^ _ceil_log_2 (len (Some <$> [2; 4; 6; 8; 1])) - 1.
Proof.
  apply (padded_size Z.add (Some <$> [2; 4; 6; 8; 1])).
  vm_compute. discriminate.
Defined.

(** C9, amended, on the tree over [[2, 4, 6, 8]], for [query(-1, 5)]. *)
Lemma error_messages_witness :
  ∃ msg, IndexError "[L,R] = [-1,5] but segtree only has 4 elements" =
           IndexError msg ∧
         msg = query_msg (-1) 5 (n demo) ∧
         ∀ L' R' m', msg = query_msg L' R' m' →
                     L' = -1 ∧ R' = 5 ∧ m' = n demo.
Proof.
  apply (error_messages Z.add demo (Query (-1) 5)).
  - exact demo_reachable.
  - reflexivity.
Defined.

(** The concrete scenarios of the two structures. *)
Example segtree_scenario :
  (query 0 4 demo).1 = Ok (Some 20) ∧
  (query 1 3 demo).1 = Ok (Some 10) ∧
  (let self' := (update 2 (Some 100) demo).2 in
   (query 0 4 self').1 = Ok (Some 114) ∧
   (query 2 3 self').1 = Ok (Some 100) ∧
   (arr self').1 = Ok [Some 2; Some 4; Some 100; Some 8]).
Proof. vm_compute. done. Qed.

Example queue_scenario :
  let q0 := @Queue.init Z in
  let q1 := (enq (Some 1) q0).2 in
  let q2 := (enq (Some 2) q1).2 in
  let '(r1, q3) := deq q2 in
  let q4 := (enq (Some 3) q3).2 in
  let '(r2, q5) := deq q4 in
  let '(r3, q6) := deq q5 in
  let '(r4, q7) := deq q6 in
  (r1, r2, r3, r4, (Queue.length q7).1) =
    (Ok (Some 1), Ok (Some 2), Ok (Some 3), Ok None, Ok 0).
Proof. vm_compute. done. Qed.

End Examples.

(** * Further properties *)

(** ** The queue against a plain list *)

Module QueueMore.
Import Queue QueueCalls QueueSpec.
Section QueueMore.
Context {T : Type}.
Implicit Types q : Queue.t T.

Lemma counted_len q : counted q → n q = len (contents q).
Proof.
  unfold counted, contents. intros ->. rewrite len_app. unfold len.
  rewrite length_reverse. lia.
Qed.

Lemma call_spec q (c : cmd T) :
  counted q →
  ∃ q', call c q = (Ok (list_call c (contents q)).1, q') ∧
        contents q' = (list_call c (contents q)).2 ∧ counted q'.
Proof.
  intros Hn. destruct c as [k| | |]; simpl.
  - destruct (enq_spec q k) as (q' & E & Hc & Hn').
    exists q'. rewrite (bind_ok _ _ _ _ _ E). auto.
  - destruct (contents q) as [|x r] eqn:Hc.
    + exists q. rewrite (bind_ok _ _ _ _ _ (deq_empty q (contents_nil q Hn Hc))).
      auto.
    + destruct (deq_spec q x r Hn Hc) as (q' & E & Hc' & Hn').
      exists q'. rewrite (bind_ok _ _ _ _ _ E). auto.
  - eexists. split; [reflexivity|]. done.
  - exists q. rewrite <- (counted_len q Hn). auto.
Qed.

Lemma calls_spec (cs : list (cmd T)) : ∀ q,
  counted q → (calls cs q).1 = Ok (list_calls cs (contents q)).
Proof.
  induction cs as [|c cs IH]; intros q Hn; [done|].
  destruct (call_spec q c Hn) as (q' & E & Hc & Hn').
  cbn [calls list_calls]. rewrite (bind_ok _ _ _ _ _ E).
  destruct (list_call c (contents q)) as [r l'] eqn:El. simpl in *.
  specialize (IH q' Hn'). rewrite Hc in IH. unfold bind.
  destruct (calls cs q') as [[rs|e] q'']; simpl in *; congruence.
Qed.

(** X1. Whatever calls of [enq], [deq], [clear] and [len] a caller makes
    on a new queue, in any order, none raises and each returns what the
    same call returns on a plain list that starts empty: [enq] appends at
    the back, [deq] takes the front item or returns [None] on the empty
    list, [clear] empties it and [len] is its length. *)
Theorem queue_is_a_list (cs : list (cmd T)) :
  (calls cs Queue.init).1 = Ok (list_calls cs []).
Proof. by apply (calls_spec cs Queue.init). Qed.

(** X2. [deq] on a queue whose count is not 0: when stack 2 holds items,
    it pops the top of stack 2 and leaves stack 1 alone; when stack 2 is
    empty, it moves all of stack 1 onto stack 2 in reverse order and
    returns the bottom item of stack 1; and when both stacks are empty
    (a count that does not match them), the pop raises after the count
    has been decremented. *)
Theorem deq_transfers_lazily q :
  n q ≠ 0 →
  (∀ s y, stack_2 q = s ++ [y] →
          deq q = (Ok y, Queue.mk (stack_1 q) s (n q - 1))) ∧
  (∀ x r, stack_2 q = [] → stack_1 q = x :: r →
          deq q = (Ok x, Queue.mk [] (reverse r) (n q - 1))) ∧
  (stack_2 q = [] → stack_1 q = [] →
   deq q = (Raise (IndexError "pop from empty list"),
            Queue.mk [] [] (n q - 1))).
Proof.
  destruct q as [s1 s2 m]. simpl. intros Hm.
  unfold deq, bind, read, write, set_n, ret, raise. simpl.
  destruct (Z.eqb_spec m 0) as [|_]; [done|]. cbn [stack_1 stack_2 n].
  repeat split.
  - intros s y ->. destruct (Z.eqb_spec (len (s ++ [y])) 0) as [E|_].
    { apply len_0 in E. by destruct s. }
    cbn [stack_2]. by rewrite pop_snoc.
  - intros x r -> ->. change (len [] =? 0) with true. cbv iota.
    rewrite transfer_spec. cbn [stack_2 app].
    by rewrite reverse_cons, pop_snoc.
  - intros -> ->. change (len [] =? 0) with true. cbv iota.
    by rewrite transfer_spec.
Qed.

End QueueMore.
End QueueMore.

(** ** The segment tree: sizes, and what a call may write *)

Module SegtreeMore.
Import Segtree SegtreeSize SegtreeBuild SegtreeUpdate SegtreeQuery SegtreeSpec.

(** X3. For [n >= 1] the loop of [_ceil_log_2] leaves in [ans] the floor
    of the binary logarithm of [n], and leaves [exact] true exactly when
    [n] is a power of two, as its comments say. *)
Theorem ceil_log_2_loop_meaning (n : Z) :
  1 <= n →
  0 <= (ceil_log_2_loop n 0 true).1 ∧
  2 ^ (ceil_log_2_loop n 0 true).1 <= n < 2 ^ ((ceil_log_2_loop n 0 true).1 + 1) ∧
  ((ceil_log_2_loop n 0 true).2 = true ↔ ∃ e, 0 <= e ∧ n = 2 ^ e).
Proof.
  intros Hn. destruct (ceil_log_2_loop_spec n Hn) as (e & He & [Hlo Hhi] & Hloop).
  rewrite Hloop. cbn [fst snd andb]. rewrite Z.add_0_l.
  split; [done|]. split; [done|]. rewrite Z.eqb_eq. split.
  - intros ->. by exists e.
  - intros (e' & He' & ->). f_equal.
    apply Z.pow_le_mono_r_iff in Hlo; [|lia..].
    apply Z.pow_lt_mono_r_iff in Hhi; lia.
Qed.

Section SegtreeMore.
Context {T : Type} (f : T → T → T).
Implicit Types self : Segtree.t T.
Implicit Types a : list (option T).

(** X4. For an array of [n >= 1] items the tree [__init__] builds has
    [l] nodes with [2*n - 1 <= l < 4*n - 1]: the padding less than
    doubles the number of leaves. *)
Theorem node_count_bound a self :
  1 <= len a → init a f = Ok self →
  2 * len a - 1 <= l self ∧ l self < 4 * len a - 1 ∧
  len (seg self) = l self ∧ len (span self) = l self.
Proof.
  intros Hn E. destruct (init_shaped f a) as (self' & E' & Hsh).
  assert (self' = self) as -> by congruence.
  pose proof (sh_frame _ _ _ _ Hsh) as [Hop Hn' Hl HK Ha Hseg Hspan].
  destruct (ceil_log_2_spec (len a) Hn) as (Hc & Hle & Hleast).
  set (c := _ceil_log_2 (len a)) in *.
  assert (0 < 2 ^ c) as Hpos by (apply Z.pow_pos_nonneg; lia).
  assert (2 ^ c < 2 * len a) as Hup.
  { destruct (decide (c = 0)) as [->|Hc0]; [simpl; lia|].
    destruct (Z.le_gt_cases (len a) (2 ^ (c - 1))) as [Hsmall|Hbig].
    - specialize (Hleast (c - 1) ltac:(lia) Hsmall). lia.
    - replace c with (c - 1 + 1) by lia.
      rewrite Z.pow_add_r, Z.pow_1_r by lia. lia. }
  unfold len in *. rewrite Hseg, Hspan, Hl. lia.
Qed.

Lemma join_children_frame (i : Z) self :
  n (join_children i self).2 = n self ∧
  op (join_children i self).2 = op self ∧
  span (join_children i self).2 = span self ∧
  l (join_children i self).2 = l self ∧
  length (seg (join_children i self).2) = length (seg self).
Proof.
  unfold join_children, bind, read, lift, write.
  destruct (getitem (seg self) (2 * i + 1)); [|done].
  destruct (getitem (seg self) (2 * i + 2)); [|done].
  unfold setitem. destruct (norm_index (seg self) i); [|done].
  simpl. by rewrite length_insert.
Qed.

Lemma update_loop_frame (i : Z) : ∀ self,
  n (update_loop i self).2 = n self ∧
  op (update_loop i self).2 = op self ∧
  span (update_loop i self).2 = span self ∧
  l (update_loop i self).2 = l self ∧
  length (seg (update_loop i self).2) = length (seg self).
Proof.
  destruct (Z.le_gt_cases i 0) as [Hi|Hi].
  { intros self. rewrite update_loop_unfold. by rewrite decide_False by lia. }
  assert (0 <= i) as Hi0 by lia. clear Hi. revert i Hi0.
  apply (Z_lt_induction (λ i, ∀ self, _)). intros i IH self.
  rewrite update_loop_unfold. destruct (decide (i > 0)) as [Hgt|]; [|done].
  pose proof (join_children_frame ((i - 1) `div` 2) self) as Hj.
  destruct (join_children ((i - 1) `div` 2) self) as [[[]|e] self1];
    simpl in Hj; [|done].
  destruct Hj as (<- & <- & <- & <- & <-). apply IH.
  assert ((i - 1) `div` 2 < i) by (apply Z.div_lt_upper_bound; lia).
  assert (0 <= (i - 1) `div` 2) by (apply Z.div_pos; lia). lia.
Qed.

(** X5. On any object, every call of [query], [update], [get] and [arr],
    returned or raised, leaves [n], [op], [span] and [l] as they were and
    keeps the length of [seg]: the only thing a call writes is cells of
    [seg]. *)
Theorem calls_write_cells_only self (c : call T) :
  n (after c self) = n self ∧ op (after c self) = op self ∧
  span (after c self) = span self ∧ l (after c self) = l self ∧
  length (seg (after c self)) = length (seg self).
Proof.
  destruct c as [L R|ind val|ind|]; simpl.
  - by rewrite query_state.
  - remember (update ind val self) as r eqn:Er.
    unfold update, bind at 1, read, raise in Er.
    destruct ((ind >=? n self) || (ind <? - n self)); [by subst r|].
    unfold bind at 1, lift, setitem in Er.
    destruct (norm_index _ _) as [j|]; [|by subst r].
    unfold bind, write in Er. subst r.
    destruct (update_loop_frame
                (l self `div` 2 + shift (n self) ind)
                (set_seg (<[j:=val]> (seg self)) self))
      as (-> & -> & -> & -> & ->).
    simpl. by rewrite length_insert.
  - by rewrite get_state.
  - done.
Qed.

(** *** The tree is determined by its array *)

Lemma reachable_canon self :
  reachable f self →
  ∃ a, shaped f a (Z.to_nat (2 ^ _ceil_log_2 (len a))) self.
Proof.
  induction 1 as [a self E|c self _ [a Hsh]].
  - destruct (init_shaped f a) as (self' & E' & Hsh). exists a. congruence.
  - destruct c as [L R|ind val|ind|]; simpl.
    + rewrite query_state. by exists a.
    + pose proof (fr_n _ _ _ _ (sh_frame _ _ _ _ Hsh)) as Hn.
      destruct (decide (- n self <= ind < n self)) as [Hin|Hout].
      * rewrite Hn in Hin.
        destruct (update_shaped f a _ self ind val Hsh Hin) as (self' & -> & Hsh').
        exists (<[Z.to_nat (shift (len a) ind):=val]> a).
        replace (len (<[Z.to_nat (shift (len a) ind):=val]> a)) with (len a);
          [done|].
        unfold len. by rewrite length_insert.
      * rewrite update_raises by done. by exists a.
    + rewrite get_state. by exists a.
    + by exists a.
Qed.

Lemma shaped_cells a (K : nat) (s1 s2 : Segtree.t T) :
  shaped f a K s1 → shaped f a K s2 →
  ∀ d i : nat, (i + d = 2 * K - 1)%nat →
    seg s1 !! i = seg s2 !! i ∧ span s1 !! i = span s2 !! i.
Proof.
  intros H1 H2. induction d as [d IH] using lt_wf_ind. intros i Hd.
  pose proof (sh_frame _ _ _ _ H1) as [Hop1 _ _ HK _ Hseg1 Hspan1].
  pose proof (sh_frame _ _ _ _ H2) as [Hop2 _ _ _ _ Hseg2 Hspan2].
  destruct (decide (d = 0%nat)) as [->|Hd0].
  { rewrite !lookup_ge_None_2 by lia. done. }
  destruct (decide (i < K - 1)%nat) as [Hi|Hi].
  - destruct (sh_seg _ _ _ _ H1 i Hi) as (x1 & y1 & Hx1 & Hy1 & ->).
    destruct (sh_seg _ _ _ _ H2 i Hi) as (x2 & y2 & Hx2 & Hy2 & ->).
    destruct (sh_span _ _ _ _ H1 i Hi) as (l1 & r1 & Hl1 & Hr1 & ->).
    destruct (sh_span _ _ _ _ H2 i Hi) as (l2 & r2 & Hl2 & Hr2 & ->).
    destruct (IH (d - (i + 1))%nat ltac:(lia) (2 * i + 1)%nat ltac:(lia))
      as [Ea Eb].
    destruct (IH (d - (i + 2))%nat ltac:(lia) (2 * i + 2)%nat ltac:(lia))
      as [Ec Ed].
    rewrite Hop1, Hop2. split; congruence.
  - destruct (sh_leaf _ _ _ _ H1 (i - (K - 1))%nat ltac:(lia)) as [Ea Eb].
    destruct (sh_leaf _ _ _ _ H2 (i - (K - 1))%nat ltac:(lia)) as [Ec Ed].
    replace (K - 1 + (i - (K - 1)))%nat with i in * by lia.
    split; congruence.
Qed.

(** Two well-formed trees over the same array, of the same size, are the
    same object. *)
Lemma shaped_unique a (K : nat) (s1 s2 : Segtree.t T) :
  shaped f a K s1 → shaped f a K s2 → s1 = s2.
Proof.
  intros H1 H2. pose proof (shaped_cells a K s1 s2 H1 H2) as Hc.
  pose proof (sh_frame _ _ _ _ H1) as [Hop1 Hn1 Hl1 HK _ Hseg1 Hspan1].
  pose proof (sh_frame _ _ _ _ H2) as [Hop2 Hn2 Hl2 _ _ Hseg2 Hspan2].
  destruct s1 as [n1 op1 seg1 span1 l1], s2 as [n2 op2 seg2 span2 l2].
  simpl in *. subst. f_equal.
  - apply list_eq. intros i.
    destruct (decide (i < 2 * K - 1)%nat).
    + by destruct (Hc (2 * K - 1 - i)%nat i ltac:(lia)).
    + rewrite !lookup_ge_None_2 by lia. done.
  - apply list_eq. intros i.
    destruct (decide (i < 2 * K - 1)%nat).
    + by destruct (Hc (2 * K - 1 - i)%nat i ltac:(lia)).
    + rewrite !lookup_ge_None_2 by lia. done.
Qed.

(** X6. A tree a caller can obtain does not depend on how it was
    obtained: it is the very object [__init__] builds from the array
    [arr()] returns, whatever updates led to it. *)
Theorem tree_is_init_of_arr self a :
  reachable f self → arr self = (Ok a, self) → init a f = Ok self.
Proof.
  intros Hr Harr. destruct (reachable_canon self Hr) as [a' Hsh].
  rewrite (arr_shaped f a' _ self Hsh) in Harr. injection Harr as ->.
  destruct (init_shaped f a) as (self' & E & Hsh').
  by rewrite E, (shaped_unique _ _ _ _ Hsh' Hsh).
Qed.

Lemma update_canon a (K : nat) self (ind : Z) val (b : list (option T)) :
  shaped f a K self → - len a <= ind < len a →
  b = <[Z.to_nat (shift (len a) ind):=val]> a →
  ∀ self', shaped f b K self' → update ind val self = (Ok tt, self').
Proof.
  intros Hsh Hind -> self' Hsh'.
  destruct (update_shaped f a K self ind val Hsh Hind) as (self1 & E & Hsh1).
  by rewrite E, (shaped_unique _ _ _ _ Hsh1 Hsh').
Qed.

(** X10. On a tree a caller can obtain, with an index in range: writing
    back the item [get] returns leaves the object as it is; and of two
    updates at the same index, the second one alone decides the object. *)
Theorem update_same_index self (ind : Z) (x v w : option T) :
  reachable f self → - n self <= ind < n self →
  (get ind self = (Ok x, self) → update ind x self = (Ok tt, self)) ∧
  update ind w (update ind v self).2 = update ind w self.
Proof.
  intros Hr Hind. destruct (reachable_canon self Hr) as [a Hsh].
  pose proof (fr_n _ _ _ _ (sh_frame _ _ _ _ Hsh)) as Hn. rewrite Hn in Hind.
  split.
  - intros Hg. destruct (get_shaped f a _ self ind Hsh Hind) as (x' & Hx & E).
    assert (x' = x) as -> by congruence.
    apply (update_canon a _ self ind x a Hsh Hind); [|done].
    by rewrite list_insert_id.
  - destruct (update_shaped f a _ self ind v Hsh Hind) as (s1 & -> & Hsh1).
    destruct (update_shaped f a _ self ind w Hsh Hind) as (s2 & -> & Hsh2).
    cbn [snd]. assert (len (<[Z.to_nat (shift (len a) ind):=v]> a) = len a) as Hlen
      by (unfold len; by rewrite length_insert).
    apply (update_canon _ _ s1 ind w
             (<[Z.to_nat (shift (len a) ind):=w]> a) Hsh1); [lia| |done].
    by rewrite Hlen, list_insert_insert_eq.
Qed.

(** X11. On a tree a caller can obtain, two updates at indices in range
    that denote different positions leave the same object in either
    order. *)
Theorem updates_commute self (i j : Z) (v w : option T) :
  reachable f self →
  - n self <= i < n self → - n self <= j < n self →
  shift (n self) i ≠ shift (n self) j →
  update j w (update i v self).2 = update i v (update j w self).2 ∧
  (update j w (update i v self).2).1 = Ok tt.
Proof.
  intros Hr Hi Hj Hne. destruct (reachable_canon self Hr) as [a Hsh].
  pose proof (fr_n _ _ _ _ (sh_frame _ _ _ _ Hsh)) as Hn. rewrite Hn in *.
  pose proof (shift_range _ _ Hi). pose proof (shift_range _ _ Hj).
  assert (∀ p (v : option T), len (<[p:=v]> a) = len a) as Hlen
    by (intros; unfold len; by rewrite length_insert).
  destruct (update_shaped f a _ self i v Hsh Hi) as (s1 & -> & Hsh1).
  destruct (update_shaped f a _ self j w Hsh Hj) as (s2 & -> & Hsh2).
  cbn [snd].
  destruct (update_shaped f _ _ s1 j w Hsh1) as (s12 & E12 & Hsh12);
    [by rewrite Hlen|].
  rewrite E12. split; [|done]. symmetry.
  apply (update_canon _ _ s2 i v
           (<[Z.to_nat (shift (len a) j):=w]>
              (<[Z.to_nat (shift (len a) i):=v]> a)) Hsh2);
    [by rewrite Hlen| |by rewrite Hlen in Hsh12].
  rewrite !Hlen. apply list_insert_insert_ne. lia.
Qed.

(** *** Reading the tree against [arr()] *)

Lemma agg_omap (xs : list (option T)) :
  (∀ x y z, f x (f y z) = f (f x y) z) →
  agg f xs = reduce f (omap id xs).
Proof.
  intros Hf. induction xs as [|[x|] xs IH]; [done|..].
  - change (agg f (Some x :: xs)) with (op_none f (Some x) (agg f xs)).
    rewrite IH. change (omap id (Some x :: xs)) with (x :: omap id xs).
    destruct (omap id xs) as [|y ys]; simpl; [done|].
    by rewrite (foldl_assoc f Hf).
  - change (agg f (None :: xs)) with (op_none f None (agg f xs)).
    by rewrite op_none_None_l.
Qed.

(** X7. On a tree a caller can obtain, with an associative join,
    [query(L, R)] with [0 <= L < R <= n] returns the left fold of the
    join over the items of [arr()[L:R]] that are not [None], and [None]
    when all of them are: a [None] item counts for nothing. *)
Theorem query_skips_none self a (L R : Z) :
  (∀ x y z, f x (f y z) = f (f x y) z) →
  reachable f self → arr self = (Ok a, self) →
  0 <= L < R ∧ R <= n self →
  query L R self = (Ok (reduce f (omap id (slice a L R))), self).
Proof.
  intros Hf Hr Harr HLR. destruct (reachable_tree f self Hr) as [a' [e Hsh]].
  rewrite (arr_shaped f a' _ self Hsh) in Harr. injection Harr as ->.
  pose proof (fr_n _ _ _ _ (sh_frame _ _ _ _ Hsh)) as Hn. rewrite Hn in HLR.
  destruct (query_shaped f a e self L R Hsh HLR) as (v & -> & Hv).
  rewrite (Hv Hf), (agg_omap _ Hf). unfold len in HLR.
  by rewrite (slice_at a L R (Z.to_nat L) (Z.to_nat R)) by lia.
Qed.

(** X8. On a tree a caller can obtain, [get(ind)] is the list indexing
    [arr()[ind]], negative indices included: it returns the same item
    when the index is in range, and raises its [IndexError] when the
    indexing would raise. *)
Theorem get_is_indexing self a (ind : Z) :
  reachable f self → arr self = (Ok a, self) →
  get ind self =
    (match getitem a ind with
     | Ok x => Ok x
     | Raise _ => Raise (IndexError (index_msg ind))
     end, self).
Proof.
  intros Hr Harr. destruct (reachable_tree f self Hr) as [a' [e Hsh]].
  rewrite (arr_shaped f a' _ self Hsh) in Harr. injection Harr as ->.
  pose proof (fr_n _ _ _ _ (sh_frame _ _ _ _ Hsh)) as Hn.
  destruct (decide (- len a <= ind < len a)) as [Hin|Hout].
  - destruct (get_shaped f a _ self ind Hsh Hin) as (x & Hx & ->).
    pose proof (shift_range _ _ Hin) as Hs.
    unfold getitem, norm_index. fold (shift (len a) ind).
    destruct (Z.leb_spec 0 (shift (len a) ind)); [|lia].
    destruct (Z.ltb_spec (shift (len a) ind) (len a)); [|lia].
    simpl. by rewrite Hx.
  - rewrite get_raises by (by rewrite Hn). unfold getitem, norm_index.
    fold (shift (len a) ind). unfold shift.
    destruct (Z.ltb_spec ind 0);
      [destruct (Z.leb_spec 0 (ind + len a)); [lia|done]|].
    destruct (Z.leb_spec 0 ind); [|lia].
    destruct (Z.ltb_spec ind (len a)); [lia|done].
Qed.

(** *** The spans *)

(** Every node of the tree is the root of a perfect subtree over a
    stretch of the padded leaves. *)
Lemma node_at_exists (e : nat) (i : nat) :
  (i < 2 * 2 ^ e - 1)%nat → ∃ h lo, node_at (2 ^ e) h i lo.
Proof.
  induction i as [i IH] using lt_wf_ind. intros Hi.
  destruct (decide (i = 0%nat)) as [->|Hi0].
  { exists e, 0%nat. split; lia. }
  pose proof (parent_child i ltac:(lia)) as Hpc.
  set (p := ((i - 1) / 2)%nat) in *. clearbody p.
  destruct (IH p ltac:(lia) ltac:(lia)) as (h & lo & Hat).
  destruct h as [|h].
  { destruct Hat as [H1 H2]. simpl in *. lia. }
  destruct (node_at_children _ _ _ _ Hat) as (_ & Hl & Hr).
  destruct Hpc as [<-|<-]; eauto.
Qed.

(** X9. On a tree a caller can obtain: the span of the root is
    [[0, n]]; every span [[L, R]] has [0 <= L <= R <= n]; and the spans
    of the two children of a node meet, the right end of the left child
    being the left end of the right child, which is the border
    [_help_me_query] splits a query at. *)
Theorem spans_partition self :
  reachable f self →
  getitem (span self) 0 = Ok (0, n self) ∧
  (∀ i s, 0 <= i → getitem (span self) i = Ok s →
          0 <= s.1 ∧ s.1 <= s.2 ∧ s.2 <= n self) ∧
  (∀ i lc rc, 0 <= i →
     getitem (span self) (2 * i + 1) = Ok lc →
     getitem (span self) (2 * i + 2) = Ok rc → lc.2 = rc.1).
Proof.
  intros Hr. destruct (reachable_tree f self Hr) as [a [e Hsh]].
  pose proof (sh_frame _ _ _ _ Hsh) as [Hop Hn Hl HK Ha Hseg Hspan].
  assert (∀ i s, getitem (span self) (Z.of_nat i) = Ok s →
            ∃ h lo, node_at (2 ^ e) h i lo ∧
              s = (Z.of_nat (lo `min` length a),
                   Z.of_nat ((lo + 2 ^ h) `min` length a))) as Hnode.
  { intros i s [_ Hs]%getitem_nat_Ok.
    destruct (node_at_exists e i) as (h & lo & Hat).
    { apply lookup_lt_Some in Hs. lia. }
    exists h, lo. split; [done|].
    rewrite (span_meaning f a _ self h i lo Hsh Hat) in Hs. congruence. }
  rewrite Hn. unfold len. split; [|split].
  - assert (node_at (2 ^ e) e 0 0) as Hat by (split; lia).
    rewrite (getitem_at _ 0 0%nat _ eq_refl (span_meaning f a _ self e 0 0 Hsh Hat)).
    do 2 f_equal; lia.
  - intros i s Hi Hs. replace i with (Z.of_nat (Z.to_nat i)) in Hs by lia.
    destruct (Hnode _ _ Hs) as (h & lo & _ & ->). simpl. lia.
  - intros i lc rc Hi Hlc Hrc.
    replace (2 * i + 1) with (Z.of_nat (2 * Z.to_nat i + 1)) in Hlc by lia.
    replace (2 * i + 2) with (Z.of_nat (2 * Z.to_nat i + 2)) in Hrc by lia.
    pose proof (proj2 (getitem_nat_Ok _ _ _ Hrc)) as Hlt%lookup_lt_Some.
    destruct (node_at_exists e (Z.to_nat i) ltac:(lia)) as (h & lo & Hat).
    destruct h as [|h].
    { destruct Hat as [H1 H2]. simpl in *. lia. }
    destruct (node_at_children _ _ _ _ Hat) as (_ & Hal & Har).
    apply getitem_nat_Ok in Hlc as [_ Hlc]. apply getitem_nat_Ok in Hrc as [_ Hrc].
    rewrite (span_meaning f a _ self _ _ _ Hsh Hal) in Hlc.
    rewrite (span_meaning f a _ self _ _ _ Hsh Har) in Hrc.
    injection Hlc as <-. injection Hrc as <-. done.
Qed.

(** *** The cells an update writes *)

Lemma join_children_cells (q : nat) self (j : nat) :
  j ≠ q →
  seg (join_children (Z.of_nat q) self).2 !! j = seg self !! j.
Proof.
  intros Hj. unfold join_children, bind, read, lift, write.
  destruct (getitem (seg self) (2 * Z.of_nat q + 1)); [|done].
  destruct (getitem (seg self) (2 * Z.of_nat q + 2)); [|done].
  unfold setitem, norm_index.
  destruct (Z.ltb_spec (Z.of_nat q) 0); [lia|].
  destruct (_ && _); [|done]. simpl.
  rewrite Nat2Z.id. by rewrite list_lookup_insert_ne.
Qed.

(** The loop of [update], entered at node [p], writes proper ancestors
    of [p] only. *)
Lemma update_loop_path (p : nat) : ∀ self (j : nat),
  seg (update_loop (Z.of_nat p) self).2 !! j ≠ seg self !! j →
  ∃ d : nat, (1 ≤ d ∧ j + 1 = (p + 1) / 2 ^ d)%nat.
Proof.
  induction p as [p IH] using lt_wf_ind. intros self j.
  rewrite update_loop_unfold.
  destruct (decide (Z.of_nat p > 0)) as [Hgt|]; [|done].
  assert (0 < p)%nat as Hp by lia. rewrite (parent_nat p Hp).
  pose proof (parent_child p Hp) as Hpc. set (q := ((p - 1) / 2)%nat) in *.
  clearbody q.
  assert ((p + 1) / 2 = q + 1)%nat as Hhalf.
  { pose proof (Nat.div_mod_eq (p + 1) 2).
    pose proof (Nat.mod_upper_bound (p + 1) 2 ltac:(lia)). lia. }
  pose proof (join_children_cells q self j) as Hcell.
  destruct (join_children (Z.of_nat q) self) as [[[]|e] self1];
    cbn [fst snd] in *.
  - intros Hne. destruct (decide (j = q)) as [->|Hjq].
    + exists 1%nat. rewrite Nat.pow_1_r. lia.
    + rewrite <- (Hcell Hjq) in Hne.
      destruct (IH q ltac:(lia) self1 j Hne) as (d & Hd & ->).
      exists (S d). split; [lia|].
      rewrite Nat.pow_succ_r', <- Nat.Div0.div_div, Hhalf. done.
  - intros Hne. destruct (decide (j = q)) as [->|Hjq].
    + exists 1%nat. rewrite Nat.pow_1_r. lia.
    + by rewrite (Hcell Hjq) in Hne.
Qed.

(** X12. On a tree a caller can obtain, [update] with an index in range
    writes no cell of [seg] other than the leaf of the item, at
    [l//2 + ind] for the shifted [ind], and the ancestors of that leaf
    (node [i] has the ancestors [(i+1)//2^d - 1]). *)
Theorem update_writes_path self (ind : Z) (val : option T) (j : nat) :
  reachable f self → - n self <= ind < n self →
  seg (update ind val self).2 !! j ≠ seg self !! j →
  ∃ d : nat,
    (j + 1 =
       (Z.to_nat (l self `div` 2 + shift (n self) ind) + 1) / 2 ^ d)%nat.
Proof.
  intros Hr Hind. destruct (reachable_tree f self Hr) as [a [e Hsh]].
  pose proof (sh_frame _ _ _ _ Hsh) as [Hop Hn Hl HK Ha Hseg Hspan].
  rewrite Hn in Hind. pose proof (shift_range _ _ Hind) as Hs.
  assert (∃ i, shift (len a) ind = Z.of_nat i) as [i Hi]
    by (exists (Z.to_nat (shift (len a) ind)); lia).
  unfold update, bind at 1, read. rewrite Hn, Hl, Hi, (half_nodes _ HK).
  destruct (Z.geb_spec ind (len a)); [lia|].
  destruct (Z.ltb_spec ind (- len a)); [lia|]. cbn [orb].
  unfold bind at 1, lift. rewrite Hi in Hs. unfold len in Hs.
  rewrite (setitem_at _ _ (2 ^ e - 1 + i)) by lia.
  unfold bind, write.
  replace (Z.of_nat (2 ^ e - 1) + Z.of_nat i)
    with (Z.of_nat (2 ^ e - 1 + i)) by lia.
  rewrite Nat2Z.id. intros Hne.
  destruct (decide (j = 2 ^ e - 1 + i)%nat) as [->|Hj].
  { exists 0%nat. by rewrite Nat.pow_0_r, Nat.div_1_r. }
  destruct (update_loop_path (2 ^ e - 1 + i)
              (set_seg (<[(2 ^ e - 1 + i)%nat:=val]> (seg self)) self) j)
    as (d & _ & Hd); [|by exists d].
  simpl. by rewrite list_lookup_insert_ne.
Qed.

(** X14. [__init__] returns for every array, empty or not and with or
    without [None] items, and [arr()] of the tree it returns is that
    array, with [n] its length. *)
Theorem init_then_arr a :
  ∃ self, init a f = Ok self ∧ arr self = (Ok a, self) ∧ n self = len a.
Proof.
  destruct (init_shaped f a) as (self & E & Hsh). exists self.
  split; [done|]. split; [exact (arr_shaped f a _ self Hsh)|].
  apply (fr_n _ _ _ _ (sh_frame _ _ _ _ Hsh)).
Qed.

End SegtreeMore.
End SegtreeMore.

(** ** The test script *)

Module SegtreeTestSpec.
Import Segtree SegtreeSize SegtreeBuild SegtreeUpdate SegtreeQuery SegtreeSpec.
Import SegtreeTest.

Lemma elem_of_range (m i : Z) : i ∈ range m → 0 <= i < m.
Proof.
  unfold range. intros (k & -> & Hk%elem_of_seq)%list_elem_of_fmap. lia.
Qed.

Lemma elem_of_range2 (lo hi i : Z) : i ∈ range2 lo hi → lo <= i < hi.
Proof.
  unfold range2. intros (k & -> & Hk%elem_of_range)%list_elem_of_fmap. lia.
Qed.

(** A loop whose body changes nothing changes nothing. *)
Lemma for_inert {S} (xs : list Z) (body : Z → M S unit) (s : S) :
  (∀ i, i ∈ xs → body i s = (Ok tt, s)) → for_ xs body s = (Ok tt, s).
Proof.
  induction xs as [|i xs IH]; intros Hb; [done|].
  rewrite for_cons, (bind_ok _ _ _ _ _ (Hb i ltac:(left))).
  apply IH. intros j Hj. apply Hb. by right.
Qed.

Lemma sum_reduce (xs : list Z) :
  xs ≠ [] → reduce Z.add xs = Some (sum xs).
Proof. by destruct xs as [|x xs]. Qed.

Lemma on_seggs_ok {A} (c : M (Segtree.t Z) A) self self' (x : A) p :
  c self = (Ok x, self') →
  on_seggs c (mk_vars self p) = (Ok x, mk_vars self' p).
Proof. unfold on_seggs. simpl. by intros ->. Qed.

Lemma check_eq_same (x : Z) (line : string) (v : vars) :
  check_eq (Some x) x line v = (Ok tt, v).
Proof. unfold check_eq. by rewrite bool_decide_eq_true_2. Qed.

(** On a tree over the fifty [int]s [b], the comparison of every query
    with the sum of the slice prints nothing. *)
Lemma test_query_quiet (tag : string) (b : list Z) self p :
  length b = 50%nat → tree_of Z.add (Some <$> b) self →
  test_query tag b (mk_vars self p) = (Ok tt, mk_vars self p).
Proof.
  intros Hlen [e Hsh]. unfold test_query.
  apply for_inert. intros i Hi%elem_of_range.
  apply for_inert. intros j Hj%elem_of_range2.
  destruct (query_shaped Z.add _ e self i j Hsh) as (v & Ev & Hv).
  { unfold len. rewrite length_fmap, Hlen. lia. }
  destruct (agg_slice Z.add b i j) as [Eagg Hsome];
    [intros; lia|unfold len; rewrite Hlen; lia|].
  rewrite (Hv ltac:(intros; lia)), Eagg in Ev.
  rewrite (bind_ok _ _ _ _ _ (on_seggs_ok _ _ _ _ p Ev)).
  rewrite sum_reduce; [apply check_eq_same|].
  intros E. rewrite E in Hsome. by destruct Hsome.
Qed.

(** List indexing with an index in range, negative or not. *)
Lemma getitem_shift {A} (xs : list A) (ind : Z) (x : A) :
  - len xs <= ind < len xs →
  xs !! Z.to_nat (shift (len xs) ind) = Some x → getitem xs ind = Ok x.
Proof.
  intros Hin Hx. pose proof (shift_range _ _ Hin) as Hs.
  unfold getitem, norm_index. fold (shift (len xs) ind).
  destruct (Z.leb_spec 0 (shift (len xs) ind)); [|lia].
  destruct (Z.ltb_spec (shift (len xs) ind) (len xs)); [|lia].
  simpl. by rewrite Hx.
Qed.

Lemma test_get_quiet (a : list Z) self p :
  length a = 50%nat → tree_of Z.add (Some <$> a) self →
  test_get a (mk_vars self p) = (Ok tt, mk_vars self p).
Proof.
  intros Hlen [e Hsh]. unfold test_get.
  assert (len (Some <$> a) = 50 ∧ len a = 50) as [Hl1 Hl2]
    by (unfold len; rewrite length_fmap, Hlen; done).
  apply for_inert. intros i Hi%elem_of_range2.
  destruct (get_shaped Z.add _ _ self i Hsh) as (x & Hx & Eg); [lia|].
  rewrite list_lookup_fmap, Hl1 in Hx.
  destruct (a !! Z.to_nat (shift 50 i)) as [v0|] eqn:Ev0; [|done].
  injection Hx as <-.
  unfold bind at 1, lift.
  rewrite (getitem_shift a i v0) by (rewrite ?Hl2; done || lia).
  rewrite (bind_ok _ _ _ _ _ (on_seggs_ok _ _ _ _ p Eg)).
  apply check_eq_same.
Qed.

(** The updates of the script, from index [s] on. *)
Lemma test_update_loop (c : nat) : ∀ (s : nat) (b : list (option Z)) self p,
  (s + c = 50)%nat → length b = 50%nat → tree_of Z.add b self →
  (∀ j, (j < s)%nat → b !! j = Some (Some (Z.of_nat j))) →
  ∃ self',
    for_ (Z.of_nat <$> seq s c) (λ i, on_seggs (update i (Some i)))
      (mk_vars self p) = (Ok tt, mk_vars self' p) ∧
    tree_of Z.add (Some <$> range 50) self'.
Proof.
  induction c as [|c IH]; intros s b self p Hsc Hlen Htr Hb.
  - exists self. split; [done|].
    replace (Some <$> range 50) with b; [done|].
    apply list_eq. intros j. unfold range. rewrite !list_lookup_fmap.
    destruct (decide (j < 50)%nat) as [Hj|Hj].
    + rewrite Hb by lia. by rewrite lookup_seq_lt.
    + rewrite lookup_ge_None_2 by lia. by rewrite lookup_seq_ge by lia.
  - change (seq s (S c)) with (s :: seq (S s) c). rewrite fmap_cons, for_cons.
    pose proof (tree_n _ _ _ Htr) as Hn.
    assert (len b = 50) as Hl by (unfold len; by rewrite Hlen).
    destruct (update_tree Z.add b self (Z.of_nat s) (Some (Z.of_nat s)) Htr)
      as (self1 & E & Htr1); [lia|].
    rewrite (bind_ok _ _ _ _ _ (on_seggs_ok _ _ _ _ p E)).
    apply (IH (S s) _ self1 p ltac:(lia)) in Htr1; [done|by rewrite length_insert|].
    intros j Hj. rewrite Hn, Hl. unfold shift.
    destruct (Z.ltb_spec (Z.of_nat s) 0); [lia|]. rewrite Nat2Z.id.
    destruct (decide (j = s)) as [->|Hne].
    + by rewrite list_lookup_insert_eq by lia.
    + rewrite list_lookup_insert_ne by lia. apply Hb. lia.
Qed.

Lemma test_arr_quiet self p :
  tree_of Z.add (Some <$> range 50) self →
  test_arr (mk_vars self p) = (Ok tt, mk_vars self p).
Proof.
  intros [e Hsh]. unfold test_arr.
  rewrite (bind_ok _ _ _ _ _
             (on_seggs_ok _ _ _ _ p (arr_shaped Z.add _ _ self Hsh))).
  apply for_inert. intros i Hi%elem_of_range. unfold bind at 1, lift.
  rewrite (getitem_at _ i (Z.to_nat i) (Some i)); [apply check_eq_same|lia|].
  unfold range. rewrite !list_lookup_fmap, lookup_seq_lt by lia.
  simpl. do 2 f_equal. lia.
Qed.

(** X13. Whatever fifty [int]s [randrange] draws, the test script runs
    to its end without an exception and prints no line: every comparison
    it makes of [query], [get], [update] and [arr] with the plain list
    succeeds. *)
Theorem script_prints_nothing (a : list Z) :
  length a = 50%nat → script a = Ok [].
Proof.
  intros Hlen. unfold script.
  destruct (init_tree Z.add (Some <$> a)) as (self & -> & Htr). cbn [rbind].
  rewrite (bind_ok _ _ _ _ _ (test_query_quiet "" a self [] Hlen Htr)).
  rewrite (bind_ok _ _ _ _ _ (test_get_quiet a self [] Hlen Htr)).
  destruct (test_update_loop 50 0 (Some <$> a) self []) as (self' & E & Htr');
    [done|by rewrite length_fmap|done|intros j Hj; lia|].
  unfold test_update.
  change (range 50) with (Z.of_nat <$> seq 0 50) at 1.
  rewrite (bind_ok _ _ _ _ _ E).
  rewrite (bind_ok _ _ _ _ _
             (test_query_quiet "updated " (range 50) self' [] eq_refl Htr')).
  by rewrite (test_arr_quiet self' [] Htr').
Qed.

End SegtreeTestSpec.

(** ** The further properties at concrete inputs *)

Module MoreExamples.
Import Queue QueueMore Segtree SegtreeSpec SegtreeErrors SegtreeMore.
Import SegtreeTest SegtreeTestSpec.

(** X2 on a queue of two items, both still on stack 1. *)
Lemma deq_transfers_lazily_witness :
  deq (Queue.mk [Some 1; Some 2] [] 2) =
    (Ok (Some 1), Queue.mk [] (reverse [Some 2]) (2 - 1)).
Proof.
  apply (deq_transfers_lazily (Queue.mk [Some 1; Some 2] [] 2)); done.
Defined.

(** X3 for [n = 6]. *)
Lemma ceil_log_2_loop_meaning_witness :
  0 <= (ceil_log_2_loop 6 0 true).1 ∧
  2 ^ (ceil_log_2_loop 6 0 true).1 <= 6 < 2 ^ ((ceil_log_2_loop 6 0 true).1 + 1) ∧
  ((ceil_log_2_loop 6 0 true).2 = true ↔ ∃ e, 0 <= e ∧ 6 = 2 ^ e).
Proof. apply (ceil_log_2_loop_meaning 6). lia. Defined.

(** X4 on the tree over [[2, 4, 6, 8]]. *)
Lemma node_count_bound_witness :
  2 * len (Some <$> [2; 4; 6; 8]) - 1 <= l demo ∧
  l demo < 4 * len (Some <$> [2; 4; 6; 8]) - 1 ∧
  len (seg demo) = l demo ∧ len (span demo) = l demo.
Proof.
  apply (node_count_bound Z.add (Some <$> [2; 4; 6; 8]) demo).
  - vm_compute. discriminate.
  - exact demo_init.
Defined.

(** X6 on the tree over [[2, 4, 6, 8]] after [update(2, 100)]. *)
Lemma tree_is_init_of_arr_witness :
  init [Some 2; Some 4; Some 100; Some 8] Z.add =
    Ok (after (Update 2 (Some 100)) demo).
Proof.
  apply (tree_is_init_of_arr Z.add).
  - apply reach_call. exact demo_reachable.
  - vm_compute. reflexivity.
Defined.

(** X7 on the tree over [[2, 4, 6, 8]] after [update(1, None)], for
    [query(0, 3)]. *)
Lemma query_skips_none_witness :
  query 0 3 (after (Update 1 None) demo) =
    (Ok (reduce Z.add (omap id (slice [Some 2; None; Some 6; Some 8] 0 3))),
     after (Update 1 None) demo).
Proof.
  apply (query_skips_none Z.add).
  - intros x y z. lia.
  - apply reach_call. exact demo_reachable.
  - vm_compute. reflexivity.
  - vm_compute. intuition discriminate.
Defined.

(** X8 on the tree over [[2, 4, 6, 8]], for [get(-1)]. *)
Lemma get_is_indexing_witness :
  get (-1) demo =
    (match getitem (Some <$> [2; 4; 6; 8]) (-1) with
     | Ok x => Ok x
     | Raise _ => Raise (IndexError (index_msg (-1)))
     end, demo).
Proof.
  apply (get_is_indexing Z.add demo).
  - exact demo_reachable.
  - reflexivity.
Defined.

(** X9 on the tree over [[2, 4, 6, 8]]. *)
Lemma spans_partition_witness :
  getitem (span demo) 0 = Ok (0, n demo) ∧
  (∀ i s, 0 <= i → getitem (span demo) i = Ok s →
          0 <= s.1 ∧ s.1 <= s.2 ∧ s.2 <= n demo) ∧
  (∀ i lc rc, 0 <= i →
     getitem (span demo) (2 * i + 1) = Ok lc →
     getitem (span demo) (2 * i + 2) = Ok rc → lc.2 = rc.1).
Proof. apply (spans_partition Z.add demo). exact demo_reachable. Defined.

(** X10 on the tree over [[2, 4, 6, 8]], for the index [-1]. *)
Lemma update_same_index_witness :
  (get (-1) demo = (Ok (Some 8), demo) →
   update (-1) (Some 8) demo = (Ok tt, demo)) ∧
  update (-1) (Some 5) (update (-1) (Some 7) demo).2 =
    update (-1) (Some 5) demo.
Proof.
  apply (update_same_index Z.add demo (-1) (Some 8) (Some 7) (Some 5)).
  - exact demo_reachable.
  - vm_compute. intuition discriminate.
Defined.

(** X11 on the tree over [[2, 4, 6, 8]], for the indices [0] and [-1]. *)
Lemma updates_commute_witness :
  update (-1) (Some 5) (update 0 (Some 7) demo).2 =
    update 0 (Some 7) (update (-1) (Some 5) demo).2 ∧
  (update (-1) (Some 5) (update 0 (Some 7) demo).2).1 = Ok tt.
Proof.
  apply (updates_commute Z.add demo 0 (-1) (Some 7) (Some 5)).
  - exact demo_reachable.
  - vm_compute. intuition discriminate.
  - vm_compute. intuition discriminate.
  - vm_compute. discriminate.
Defined.

(** X12 on the tree over [[2, 4, 6, 8]]: [update(2, 100)] writes the
    root. *)
Lemma update_writes_path_witness :
  ∃ d : nat,
    (0 + 1 = (Z.to_nat (l demo `div` 2 + shift (n demo) 2) + 1) / 2 ^ d)%nat.
Proof.
  apply (update_writes_path Z.add demo 2 (Some 100) 0).
  - exact demo_reachable.
  - vm_compute. intuition discriminate.
  - vm_compute. discriminate.
Defined.

(** X13 for the draw [0, 1, ..., 49]. *)
Lemma script_prints_nothing_witness : script (range 50) = Ok [].
Proof. apply (script_prints_nothing (range 50)). reflexivity. Defined.

End MoreExamples.
